(** * External sort: run generation and heap-driven k-way merge

    A shallow embedding of [ExternalSort/Main.cpp] and
    [ExternalSort/FileInteger.h].

    Conventions of the model.
    - A file is a sequence of [int]s (the program only ever reads and
      writes whole [int]s); its length in bytes is [sizeof_int] times the
      number of its elements.
    - [int] is 32 bits wide, [size_t] and stream offsets are 64 bits wide;
      a conversion to [int] keeps the low 32 bits (two's complement).
      The conversions the program performs are written out ([to_int],
      [to_size_t]).  The loop counters are plain integers: lemma
      [merge_loop_counters] bounds them by twice the initial number of runs.
    - The file system is a finite map from file names to contents; the
      name of run [n] is its decimal rendering, as [std::to_string] gives.
    - An [ifstream] holds the content the file had when it was opened,
      a get position and the [eofbit]/[failbit] flags.
    - [std::sort] on [int]s is a merge sort for [<=]; the heap algorithms
      [std::make_heap], [std::pop_heap], [std::push_heap] are an interface
      ([StdHeap]) carrying the contract the C++ standard gives them, so
      that every result holds for each conforming implementation; the
      usual array-based binary heap ([binary_heap]) is one of them.
    - Undefined behaviour and uncaught exceptions are a [Fault] outcome;
      loops that the source does not bound take fuel. *)

From stdpp Require Import gmap strings list sorting pretty.
From Stdlib Require Import ZArith Lia.

Local Open Scope Z_scope.

(** ** Machine integers *)

Definition sizeof_int : Z := 4.
Definition int_max : Z := 2 ^ 31 - 1.

(** Conversion of an integer value to [int]: the value modulo [2^32],
    read as a signed number. *)
Definition to_int (z : Z) : Z := (z + 2 ^ 31) mod 2 ^ 32 - 2 ^ 31.

(** Conversion of an integer value to [size_t]. *)
Definition to_size_t (z : Z) : Z := z mod 2 ^ 64.

(** [x / sizeof(int)] for an [int] x: the usual arithmetic conversions
    turn [x] into a [size_t] first. *)
Definition div_sizeof (x : Z) : Z := to_size_t x / sizeof_int.

(** ** Outcomes *)

Inductive fault : Set :=
  | BadArrayNewLength    (* [new T[n]] with a negative [n] *)
  | UninitialisedRead    (* use of an [int] that no read has filled *)
  | DanglingPointer.     (* [ptrFileReadFrom] outside the batch's streams *)

Inductive outcome (A : Type) : Type :=
  | Normal (a : A)
  | Fault (f : fault)
  | OutOfFuel.
Arguments Normal {A} a.
Arguments Fault {A} f.
Arguments OutOfFuel {A}.

Global Instance outcome_bind : MBind outcome := λ A B k m,
  match m with
  | Normal a => k a
  | Fault f => Fault f
  | OutOfFuel => OutOfFuel
  end.

(** ** Input streams *)

Record ifstream : Type := {
  sopen : bool;          (* [is_open()] *)
  sdata : list Z;        (* the [int]s of the file *)
  spos  : nat;           (* get position, counted in [int]s *)
  seof  : bool;          (* [eofbit] *)
  sfail : bool           (* [failbit] *)
}.

Definition good (s : ifstream) : bool := negb (seof s) && negb (sfail s).

Definition set_fail (s : ifstream) : ifstream :=
  {| sopen := sopen s; sdata := sdata s; spos := spos s;
     seof := seof s; sfail := true |}.

(** Construction of the [sentry] of an unformatted input function:
    a stream that is not [good()] gets [failbit]. *)
Definition sentry (s : ifstream) : ifstream :=
  if good s then s else set_fail s.

(** [tellg()]: the position in bytes, or [-1] on a failed stream or a
    stream without a file. *)
Definition tellg (s : ifstream) : Z * ifstream :=
  let s1 := sentry s in
  if sfail s1 || negb (sopen s1) then (-1, s1)
  else (sizeof_int * Z.of_nat (spos s1), s1).

Definition clear_eof (s : ifstream) : ifstream :=
  {| sopen := sopen s; sdata := sdata s; spos := spos s;
     seof := false; sfail := sfail s |}.

(** [clear()]: all state flags are reset. *)
Definition clear (s : ifstream) : ifstream :=
  {| sopen := sopen s; sdata := sdata s; spos := spos s;
     seof := false; sfail := false |}.

Definition set_pos (s : ifstream) (p : nat) : ifstream :=
  {| sopen := sopen s; sdata := sdata s; spos := p;
     seof := seof s; sfail := sfail s |}.

(** [seekg(off)] to an absolute byte offset: [eofbit] is cleared first;
    on a stream that has not failed the position is set, and a negative
    offset, or any offset on a stream without a file, sets [failbit].
    Offsets are multiples of [sizeof_int] wherever the program seeks. *)
Definition seekg (off : Z) (s : ifstream) : ifstream :=
  let s1 := sentry (clear_eof s) in
  if sfail s1 then s1
  else if sopen s1 && bool_decide (0 ≤ off) && bool_decide (off mod sizeof_int = 0)
       then set_pos s1 (Z.to_nat (off / sizeof_int))
       else set_fail s1.

(** [seekg(0, std::ios::beg)] and [seekg(0, std::ios::end)]. *)
Definition seekg_beg (s : ifstream) : ifstream := seekg 0 s.
Definition seekg_end (s : ifstream) : ifstream :=
  seekg (sizeof_int * Z.of_nat (length (sdata s))) s.

(** [read(buf, n * sizeof(int))]: the [int]s that were extracted, at most
    [n]; fewer than [n] set [eofbit] and [failbit]. *)
Definition read_ints (n : nat) (s : ifstream) : list Z * ifstream :=
  let s1 := sentry s in
  if sfail s1 then ([], s1)
  else
    let got := take n (drop (spos s1) (sdata s1)) in
    let s2 := set_pos s1 (spos s1 + length got)%nat in
    if decide (length got < n)%nat
    then (got, {| sopen := sopen s2; sdata := sdata s2; spos := spos s2;
                  seof := true; sfail := true |})
    else (got, s2).

Definition close (s : ifstream) : ifstream :=
  {| sopen := false; sdata := sdata s; spos := spos s;
     seof := seof s; sfail := if sopen s then sfail s else true |}.

(** ** fileLen (Main.cpp, lines 248-265) *)

Definition fileLen (file : ifstream) : Z * ifstream :=
  let '(p, file) := tellg file in
  let position := to_int p in
  let file := seekg_beg file in
  let '(p, file) := tellg file in
  let start := to_int p in
  let file := seekg_end file in
  let '(p, file) := tellg file in
  let end_ := to_int p in
  let file := clear file in
  let file := seekg position file in
  (to_int (end_ - start), file).

(** ** The file system *)

Abbreviation filesystem := (gmap string (list Z)).

(** [std::to_string] on an [int]. *)
Definition to_string (n : Z) : string := pretty n.

(** A stream constructed on, or [open]ed with, a file name. *)
Definition open_in (fs : filesystem) (name : string) : ifstream :=
  match fs !! name with
  | Some d => {| sopen := true; sdata := d; spos := 0; seof := false; sfail := false |}
  | None => {| sopen := false; sdata := []; spos := 0; seof := false; sfail := true |}
  end.

(** [remove(name)]. *)
Definition remove (name : string) (fs : filesystem) : filesystem :=
  delete name fs.

(** [rename(old, new)]: nothing happens when [old] does not exist; an
    existing [new] is replaced. *)
Definition rename (old new : string) (fs : filesystem) : filesystem :=
  match fs !! old with
  | Some d => <[new := d]> (delete old fs)
  | None => fs
  end.

(** ** makeTempFiles (Main.cpp, lines 93-127) *)

(** [std::sort] on an array of [int]s. *)
Definition std_sort (l : list Z) : list Z := merge_sort Z.le l.

Record gen_state : Type := {
  g_fs : filesystem;
  unsortedFile : ifstream;
  amountLeftToRead : Z;
  fileNumber : Z
}.

(** The number of [int]s the next iteration reads (line 103). *)
Definition numToRead (maxFileInts : Z) (st : gen_state) : Z :=
  if decide (amountLeftToRead st < maxFileInts)
  then amountLeftToRead st else maxFileInts.

(** One iteration of the loop of lines 99-124.  The buffer
    [sortedValues] is the list [buf]; it has [numToRead] elements. *)
Definition makeTempFiles_body (maxFileInts : Z) (st : gen_state)
  : outcome gen_state :=
  let n := numToRead maxFileInts st in
  let amount := amountLeftToRead st - n in
  if decide (n < 0) then Fault BadArrayNewLength
  else
    let '(buf, file) := read_ints (Z.to_nat n) (unsortedFile st) in
    if decide (length buf < Z.to_nat n)%nat then Fault UninitialisedRead
    else
      Normal {| g_fs := <[to_string (fileNumber st) := std_sort buf]> (g_fs st);
                unsortedFile := file;
                amountLeftToRead := amount;
                fileNumber := fileNumber st + 1 |}.

Fixpoint makeTempFiles_loop (fuel : nat) (maxFileInts : Z) (st : gen_state)
  : outcome gen_state :=
  if decide (amountLeftToRead st > 0) then
    match fuel with
    | O => OutOfFuel
    | S fuel' =>
        st' ← makeTempFiles_body maxFileInts st;
        makeTempFiles_loop fuel' maxFileInts st'
    end
  else Normal st.

(** The state the loop starts in (lines 95-97). *)
Definition makeTempFiles_init (fs : filesystem) (file : ifstream) : gen_state :=
  let '(len, file) := fileLen file in
  {| g_fs := fs; unsortedFile := file;
     amountLeftToRead := to_int (div_sizeof len);
     fileNumber := 0 |}.

Definition makeTempFiles (fuel : nat) (fs : filesystem) (file : ifstream)
    (maxFileInts : Z) : outcome (filesystem * Z) :=
  st ← makeTempFiles_loop fuel maxFileInts (makeTempFiles_init fs file);
  Normal (g_fs st, fileNumber st).

(** ** FileInteger (FileInteger.h) *)

Record FileInteger : Type := {
  ptrFileReadFrom : nat;   (* index of the stream in [filesToMerge] *)
  numLeftToRead : Z;
  value : Z
}.

(** [FileInteger::operator()]. *)
Definition FileInteger_cmp (a b : FileInteger) : bool :=
  bool_decide (value a > value b).

(** ** The heap algorithms of the standard library *)

(** [std::is_heap(first, last, comp)]: no element compares after its
    parent, the parent of position [i > 0] being position [(i - 1) / 2]. *)
Definition is_heap {A} (comp : A → A → bool) (v : list A) : Prop :=
  ∀ (i : nat) x p, (0 < i)%nat →
    v !! i = Some x → v !! ((i - 1) / 2)%nat = Some p → comp p x = false.

Class StdHeap (A : Type) : Type := {
  make_heap : (A → A → bool) → list A → list A;
  pop_heap : (A → A → bool) → list A → list A;
  push_heap : (A → A → bool) → list A → list A
}.
Arguments make_heap {A _} comp v.
Arguments pop_heap {A _} comp v.
Arguments push_heap {A _} comp v.

(** The contract of the three algorithms for a comparison [comp]:
    [make_heap] rearranges a range into a heap; [pop_heap], on a non-empty
    heap, moves the first element to the last position and leaves a heap
    before it; [push_heap], on a heap followed by one element, makes the
    whole range a heap. *)
Class StdHeapLaws {A} (H : StdHeap A) (comp : A → A → bool) : Prop := {
  make_heap_perm v : make_heap comp v ≡ₚ v;
  make_heap_is_heap v : is_heap comp (make_heap comp v);
  pop_heap_spec x v :
    is_heap comp (x :: v) →
    ∃ v', pop_heap comp (x :: v) = v' ++ [x] ∧ v' ≡ₚ v ∧ is_heap comp v';
  push_heap_perm v x :
    is_heap comp v → push_heap comp (v ++ [x]) ≡ₚ v ++ [x];
  push_heap_is_heap v x :
    is_heap comp v → is_heap comp (push_heap comp (v ++ [x]))
}.

(** The order a comparison induces: [comp_le comp a b] when [a] does not
    compare after [b]. *)
Definition comp_le {A} (comp : A → A → bool) : relation A :=
  λ a b, comp a b = false.

Global Instance comp_le_dec {A} (comp : A → A → bool) :
  RelDecision (comp_le comp).
Proof. intros a b. unfold comp_le. apply _. Defined.

(** An implementation of the interface that sorts the range (a sorted
    range is a heap). *)
Definition sorting_heap (A : Type) : StdHeap A :=
  {| make_heap := λ comp v, merge_sort (comp_le comp) v;
     pop_heap := λ comp v,
       match v with
       | [] => []
       | x :: v' => merge_sort (comp_le comp) v' ++ [x]
       end;
     push_heap := λ comp v, merge_sort (comp_le comp) v |}.

(** The same with the range reversed first: another implementation of
    the interface, which orders equal elements differently. *)
Definition sorting_heap_rev (A : Type) : StdHeap A :=
  {| make_heap := λ comp v, merge_sort (comp_le comp) (reverse v);
     pop_heap := λ comp v,
       match v with
       | [] => []
       | x :: v' => merge_sort (comp_le comp) (reverse v') ++ [x]
       end;
     push_heap := λ comp v, merge_sort (comp_le comp) (reverse v) |}.

(** A binary heap in an array: the element at position [i > 0] has its
    parent at position [(i - 1) / 2] and its children at [2 * i + 1] and
    [2 * i + 2]. *)
Section binary_heap.
Context {A : Type} (comp : A → A → bool).

(** The hole moves up while its parent compares before the value. *)
Fixpoint sift_up (fuel : nat) (v : list A) (holeIndex : nat) (x : A) : list A :=
  match fuel with
  | O => <[holeIndex := x]> v
  | S fuel' =>
      match holeIndex, v !! ((holeIndex - 1) / 2)%nat with
      | S _, Some p =>
          if comp p x
          then sift_up fuel' (<[holeIndex := p]> v) ((holeIndex - 1) / 2) x
          else <[holeIndex := x]> v
      | _, _ => <[holeIndex := x]> v
      end
  end.

(** The child of [holeIndex] below [len] that does not compare before
    the other one. *)
Definition greater_child (v : list A) (len holeIndex : nat) : option (nat * A) :=
  let l := (2 * holeIndex + 1)%nat in
  let r := (2 * holeIndex + 2)%nat in
  if decide (l < len)%nat then
    match v !! l with
    | None => None
    | Some a =>
        match (if decide (r < len)%nat then v !! r else None) with
        | Some b => if comp a b then Some (r, b) else Some (l, a)
        | None => Some (l, a)
        end
    end
  else None.

(** The hole moves down while the value compares before the greater
    child; positions from [len] on are left alone. *)
Fixpoint sift_down (fuel : nat) (v : list A) (len holeIndex : nat) (x : A)
  : list A :=
  match fuel with
  | O => <[holeIndex := x]> v
  | S fuel' =>
      match greater_child v len holeIndex with
      | Some (c, b) =>
          if comp x b
          then sift_down fuel' (<[holeIndex := b]> v) len c x
          else <[holeIndex := x]> v
      | None => <[holeIndex := x]> v
      end
  end.

(** Positions [k - 1], ..., [0] sifted down in turn. *)
Fixpoint heapify (k : nat) (v : list A) : list A :=
  match k with
  | O => v
  | S k' =>
      match v !! k' with
      | Some x => heapify k' (sift_down (length v) v (length v) k' x)
      | None => heapify k' v
      end
  end.

Definition binary_make_heap (v : list A) : list A :=
  heapify (length v / 2) v.

Definition binary_push_heap (v : list A) : list A :=
  match last v with
  | Some x => sift_up (length v) v (length v - 1) x
  | None => v
  end.

Definition binary_pop_heap (v : list A) : list A :=
  match v, last v with
  | x :: _ :: _, Some y =>
      let n := (length v - 1)%nat in
      sift_down n (<[n := x]> v) n 0 y
  | _, _ => v
  end.

End binary_heap.

Definition binary_heap (A : Type) : StdHeap A :=
  {| make_heap := binary_make_heap;
     pop_heap := binary_pop_heap;
     push_heap := binary_push_heap |}.

(** [heap_from top len v]: among the first [len] positions, no element
    whose parent is at [top] or after compares after its parent. *)
Definition heap_from {A} (comp : A → A → bool) (top len : nat) (v : list A) : Prop :=
  ∀ (i : nat) x p, (0 < i < len)%nat → (top ≤ (i - 1) / 2)%nat →
    v !! i = Some x → v !! ((i - 1) / 2)%nat = Some p → comp p x = false.

(** The same, but for the position [hole] and its children. *)
Definition heap_except {A} (comp : A → A → bool) (top len hole : nat)
    (v : list A) : Prop :=
  ∀ (i : nat) x p, (0 < i < len)%nat → (top ≤ (i - 1) / 2)%nat →
    i ≠ hole → ((i - 1) / 2)%nat ≠ hole →
    v !! i = Some x → v !! ((i - 1) / 2)%nat = Some p → comp p x = false.
(** ** mergeTempFiles (Main.cpp, lines 144-235) *)

Section merge.
Context `{H : StdHeap FileInteger}.

(** Lines 164-174: the stream of run [name] and its first cursor. *)
Definition open_run (fs : filesystem) (i : nat) (name : Z)
  : outcome (ifstream * FileInteger) :=
  let file := open_in fs (to_string name) in
  let '(buf, file) := read_ints 1 file in
  let '(len, file) := fileLen file in
  let left := to_int (to_size_t (div_sizeof len - 1)) in
  match buf with
  | v :: _ =>
      Normal (file, {| ptrFileReadFrom := i; numLeftToRead := left; value := v |})
  | [] => Fault UninitialisedRead
  end.

(** The loop of lines 162-175, for [i] from [i] on and [n] more files. *)
Fixpoint open_runs (fs : filesystem) (i : nat) (name : Z) (n : nat)
  : outcome (list ifstream * list FileInteger) :=
  match n with
  | O => Normal ([], [])
  | S n' =>
      '(file, fi) ← open_run fs i name;
      '(files, fis) ← open_runs fs (S i) (name + 1) n';
      Normal (file :: files, fi :: fis)
  end.

Record heap_state : Type := {
  fileData : list FileInteger;
  filesToMerge : list ifstream;
  written : list Z          (* what has been written to [outFile] *)
}.

(** One iteration of the loop of lines 185-216, entered with a
    non-empty [fileData]. *)
Definition heap_body (st : heap_state) : outcome heap_state :=
  match fileData st with
  | [] => Normal st
  | smallest :: _ =>
      let v := removelast (pop_heap FileInteger_cmp (fileData st)) in
      let out := written st ++ [value smallest] in
      if decide (numLeftToRead smallest > 0) then
        match filesToMerge st !! ptrFileReadFrom smallest with
        | None => Fault DanglingPointer
        | Some file =>
            let '(buf, file) := read_ints 1 file in
            match buf with
            | [] => Fault UninitialisedRead
            | nv :: _ =>
                let nextInteger :=
                  {| ptrFileReadFrom := ptrFileReadFrom smallest;
                     numLeftToRead := numLeftToRead smallest - 1;
                     value := nv |} in
                Normal {| fileData := push_heap FileInteger_cmp (v ++ [nextInteger]);
                          filesToMerge := <[ptrFileReadFrom smallest := file]> (filesToMerge st);
                          written := out |}
            end
        end
      else
        Normal {| fileData := v; filesToMerge := filesToMerge st; written := out |}
  end.

Fixpoint heap_loop (fuel : nat) (st : heap_state) : outcome heap_state :=
  match fileData st with
  | [] => Normal st
  | _ :: _ =>
      match fuel with
      | O => OutOfFuel
      | S fuel' => st' ← heap_body st; heap_loop fuel' st'
      end
  end.

(** The number of iterations the loop of lines 185-216 performs: each
    cursor is written once and replaced [numLeftToRead] times. *)
Definition heap_fuel (v : list FileInteger) : nat :=
  sum_list ((λ fi, S (Z.to_nat (numLeftToRead fi))) <$> v).

(** Lines 221-225: the streams are closed and their files removed,
    from name [fileToDelete] on. *)
Fixpoint close_and_remove (files : list ifstream) (fileToDelete : Z)
    (fs : filesystem) : list ifstream * filesystem :=
  match files with
  | [] => ([], fs)
  | file :: files' =>
      let '(closed, fs') :=
        close_and_remove files' (fileToDelete + 1) (remove (to_string fileToDelete) fs) in
      (close file :: closed, fs')
  end.

Record pass_state : Type := {
  p_fs : filesystem;
  currentFileNumToMerge : Z;
  totalNumberOfFiles : Z
}.

(** Line 155. *)
Definition numFilesToOpen (maxFileInts : Z) (st : pass_state) : Z :=
  let numFilesRemaining := totalNumberOfFiles st - currentFileNumToMerge st in
  if decide (numFilesRemaining < maxFileInts)
  then numFilesRemaining else maxFileInts.

(** Lines 158-177: the batch's streams and the heap of their first
    cursors. *)
Definition batch_open (maxFileInts : Z) (st : pass_state) : outcome heap_state :=
  let k := numFilesToOpen maxFileInts st in
  if decide (k < 0) then Fault BadArrayNewLength
  else
    '(files, fis) ← open_runs (p_fs st) 0 (currentFileNumToMerge st) (Z.to_nat k);
    Normal {| fileData := make_heap FileInteger_cmp fis;
              filesToMerge := files;
              written := [] |}.

(** One iteration of the loop of lines 149-231.  [outFile] is created
    at line 183 and receives what was written when it goes out of scope,
    at the end of the iteration. *)
Definition merge_batch (maxFileInts : Z) (st : pass_state) : outcome pass_state :=
  let k := numFilesToOpen maxFileInts st in
  h0 ← batch_open maxFileInts st;
  let current := currentFileNumToMerge st + k in
  let total := totalNumberOfFiles st in
  let fs1 := <[to_string total := []]> (p_fs st) in
  h ← heap_loop (heap_fuel (fileData h0)) h0;
  let '(_, fs2) := close_and_remove (filesToMerge h) (current - k) fs1 in
  let fs3 := <[to_string total := written h]> fs2 in
  Normal {| p_fs := fs3;
            currentFileNumToMerge := current;
            totalNumberOfFiles := if decide (current ≠ total) then total + 1 else total |}.

Fixpoint merge_loop (fuel : nat) (maxFileInts : Z) (st : pass_state)
  : outcome pass_state :=
  if decide (currentFileNumToMerge st < totalNumberOfFiles st) then
    match fuel with
    | O => OutOfFuel
    | S fuel' => st' ← merge_batch maxFileInts st; merge_loop fuel' maxFileInts st'
    end
  else Normal st.

Definition mergeTempFiles_init (fs : filesystem) (totalNumberOfFiles : Z) : pass_state :=
  {| p_fs := fs; currentFileNumToMerge := 0; totalNumberOfFiles := totalNumberOfFiles |}.

Definition mergeTempFiles (fuel : nat) (fs : filesystem) (totalNumberOfFiles : Z)
    (maxFileInts : Z) (sortedPath : string) : outcome filesystem :=
  st ← merge_loop fuel maxFileInts (mergeTempFiles_init fs totalNumberOfFiles);
  Normal (rename (to_string (currentFileNumToMerge st)) sortedPath (p_fs st)).

(** ** main (Main.cpp, lines 34-74) *)

(** The two calls of lines 67-71 on an opened input file. *)
Definition external_sort (fuel : nat) (fs : filesystem) (inFile : ifstream)
    (maxFileInts : Z) (sortedPath : string) : outcome filesystem :=
  '(fs, numberOfFiles) ← makeTempFiles fuel fs inFile maxFileInts;
  mergeTempFiles fuel fs numberOfFiles maxFileInts sortedPath.

(** [main] on the three values it reads from standard input.  Both
    [exit(0)] paths leave the file system as it is.  The input file is
    read through the stream opened on it; it is not named like a run. *)
Definition main (fuel : nat) (unsortedPath sortedPath : string)
    (maxFileInts : Z) (fs : filesystem) : outcome filesystem :=
  if decide (maxFileInts ≤ 1) then Normal fs
  else
    let inFile := open_in fs unsortedPath in
    if sopen inFile
    then external_sort fuel fs inFile maxFileInts sortedPath
    else Normal fs.

End merge.

(** ** Specification-level functions *)

(** The successive chunks of at most [m] elements of a list. *)
Fixpoint chunks (fuel : nat) (m : nat) (l : list Z) : list (list Z) :=
  match fuel, l with
  | S fuel', _ :: _ => take m l :: chunks fuel' m (drop m l)
  | _, _ => []
  end.

(** The runs the first phase leaves for a list of [int]s. *)
Definition sorted_chunks (m : nat) (l : list Z) : list (list Z) :=
  std_sort <$> chunks (length l) m l.

(** Run files [name], [name + 1], ... holding the given contents. *)
Fixpoint write_runs (name : Z) (runs : list (list Z)) (fs : filesystem)
  : filesystem :=
  match runs with
  | [] => fs
  | r :: runs' => write_runs (name + 1) runs' (<[to_string name := r]> fs)
  end.

(** A stream just opened on a file with the given content. *)
Definition stream_of (d : list Z) : ifstream :=
  {| sopen := true; sdata := d; spos := 0; seof := false; sfail := false |}.

(** The number of [int]s [makeTempFiles] finds in a file of [n] [int]s
    (line 95). *)
Definition int_count (n : nat) : Z :=
  to_int (div_sizeof (to_int (sizeof_int * Z.of_nat n))).

(** What a stream has not delivered yet. *)
Definition remaining (s : ifstream) : list Z := drop (spos s) (sdata s).

(** What is left in the stream a cursor points to. *)
Definition cursor_rest (files : list ifstream) (fi : FileInteger) : list Z :=
  match files !! ptrFileReadFrom fi with
  | Some s => remaining s
  | None => []
  end.

(** The values the cursors of the frontier stand for: their own and
    those still in their streams. *)
Definition pending (files : list ifstream) (v : list FileInteger) : list Z :=
  fi ← v; value fi :: cursor_rest files fi.

(** A cursor agrees with its stream: the stream is readable, the cursor
    counts what is left in it, and the cursor's value followed by the
    rest of the stream is ascending. *)
Definition cursor_ok (files : list ifstream) (fi : FileInteger) : Prop :=
  ∃ s, files !! ptrFileReadFrom fi = Some s
     ∧ good s = true
     ∧ numLeftToRead fi = Z.of_nat (length (remaining s))
     ∧ Sorted Z.le (value fi :: remaining s).

(** The invariant of the loop of lines 185-216 while it merges runs whose
    values are, together, [total]. *)
Record heap_inv (total : list Z) (st : heap_state) : Prop := {
  inv_is_heap : is_heap FileInteger_cmp (fileData st);
  inv_nodup : NoDup (ptrFileReadFrom <$> fileData st);
  inv_cursors : Forall (cursor_ok (filesToMerge st)) (fileData st);
  inv_perm : written st ++ pending (filesToMerge st) (fileData st) ≡ₚ total;
  inv_sorted : Sorted Z.le (written st);
  inv_below : ∀ x fi, x ∈ written st → fi ∈ fileData st → x ≤ value fi
}.

(** The stream of a run after lines 166-172, and the cursor of its
    first value. *)
Definition opened (d : list Z) : ifstream := set_pos (stream_of d) 1.

Definition first_cursor (i : nat) (d : list Z) : FileInteger :=
  {| ptrFileReadFrom := i;
     numLeftToRead := Z.of_nat (length d) - 1;
     value := hd 0 d |}.

Fixpoint first_cursors (i : nat) (runs : list (list Z)) : list FileInteger :=
  match runs with
  | [] => []
  | d :: runs' => first_cursor i d :: first_cursors (S i) runs'
  end.

(** A run file as the merge needs it: not empty, ascending, and short
    enough for its length in bytes to be an [int]. *)
Definition run_ok (d : list Z) : Prop :=
  d ≠ [] ∧ Sorted Z.le d ∧ sizeof_int * Z.of_nat (length d) ≤ int_max.

(** The runs a pass still has to merge: none is empty, each is
    ascending, and together they are short enough. *)
Definition runs_ok (runs : list (list Z)) : Prop :=
  Forall (λ d, d ≠ [] ∧ Sorted Z.le d) runs
  ∧ sizeof_int * Z.of_nat (length (concat runs)) ≤ int_max.

(** The files [name], [name + 1], ... hold the given runs. *)
Definition runs_at (fs : filesystem) (name : Z) (runs : list (list Z)) : Prop :=
  ∀ (j : nat) d, runs !! j = Some d → fs !! to_string (name + Z.of_nat j) = Some d.

(** The name of the run that is left when the runs [cur .. total - 1]
    have been merged in batches of [M]: each batch but the last adds one
    to the total. *)
Definition last_run (M cur total : Z) : Z :=
  total + Z.max 0 (total - cur - 2) / (M - 1).

(** The run files [name], [name + 1], ..., [name + n - 1] removed. *)
Fixpoint remove_runs (name : Z) (n : nat) (fs : filesystem) : filesystem :=
  match n with
  | O => fs
  | S n' => remove_runs (name + 1) n' (remove (to_string name) fs)
  end.

(** The file system a sort of [input] leaves: the output file, and no
    run file. *)
Definition sorted_fs (fs : filesystem) (M : Z) (input : list Z)
    (dest : string) : filesystem :=
  let T := Z.of_nat (length (sorted_chunks (Z.to_nat M) input)) in
  <[dest := std_sort input]> (remove_runs 0 (Z.to_nat (last_run M 0 T + 1)) fs).

(** The states a loop passes through at its head: [reach cond body s0 s]
    when [s] is the state after some number of iterations from [s0]. *)
Inductive reach {S : Type} (cond : S → Prop) (body : S → outcome S) (s0 : S)
  : S → Prop :=
  | reach_start : reach cond body s0 s0
  | reach_step s s' :
      reach cond body s0 s → cond s → body s = Normal s' →
      reach cond body s0 s'.


(** * Properties *)

(** ** Machine integers *)

Lemma to_int_small z : - 2 ^ 31 ≤ z ≤ int_max → to_int z = z.
Proof.
  unfold to_int, int_max. intros Hz.
  rewrite Z.mod_small by lia. lia.
Qed.

Lemma to_size_t_small z : 0 ≤ z < 2 ^ 64 → to_size_t z = z.
Proof. unfold to_size_t. intros Hz. by rewrite Z.mod_small. Qed.

Lemma div_sizeof_bytes n :
  0 ≤ n → sizeof_int * n ≤ int_max → div_sizeof (sizeof_int * n) = n.
Proof.
  unfold div_sizeof, sizeof_int, int_max. intros H0 Hn.
  rewrite to_size_t_small by lia.
  rewrite Z.mul_comm, Z.div_mul; lia.
Qed.

(** ** Streams and fileLen *)

Lemma good_flags s : good s = true → seof s = false ∧ sfail s = false.
Proof. unfold good. destruct (seof s), (sfail s); naive_solver. Qed.

Lemma sentry_good s : good s = true → sentry s = s.
Proof. unfold sentry. by intros ->. Qed.

Lemma tellg_good s :
  good s = true → sopen s = true →
  tellg s = (sizeof_int * Z.of_nat (spos s), s).
Proof.
  intros Hg Ho. unfold tellg. rewrite sentry_good by done.
  destruct (good_flags _ Hg) as [_ ->]. by rewrite Ho.
Qed.

Lemma ifstream_eta s :
  {| sopen := sopen s; sdata := sdata s; spos := spos s;
     seof := seof s; sfail := sfail s |} = s.
Proof. by destruct s. Qed.

Lemma seekg_good s (p : nat) :
  good s = true → sopen s = true →
  seekg (sizeof_int * Z.of_nat p) s = set_pos s p.
Proof.
  intros Hg Ho. destruct (good_flags _ Hg) as [He Hf].
  unfold seekg.
  assert (clear_eof s = s) as ->.
  { unfold clear_eof. rewrite <-He. apply ifstream_eta. }
  rewrite sentry_good, Hf, Ho by done.
  rewrite bool_decide_true by (unfold sizeof_int; lia).
  rewrite bool_decide_true
    by (unfold sizeof_int; rewrite Z.mul_comm; apply Z.mod_mul; lia).
  simpl. f_equal. unfold sizeof_int.
  rewrite Z.mul_comm, Z.div_mul by lia. lia.
Qed.

Lemma fileLen_good s :
  sopen s = true → good s = true →
  sizeof_int * Z.of_nat (length (sdata s)) ≤ int_max →
  sizeof_int * Z.of_nat (spos s) ≤ int_max →
  fileLen s = (sizeof_int * Z.of_nat (length (sdata s)), s).
Proof.
  intros Ho Hg Hlen Hpos. unfold fileLen.
  rewrite tellg_good by done.
  unfold seekg_beg.
  change 0 with (sizeof_int * Z.of_nat 0).
  rewrite seekg_good by done.
  rewrite tellg_good by done. simpl spos.
  unfold seekg_end. simpl sdata.
  rewrite seekg_good by done.
  rewrite tellg_good by done. simpl spos.
  assert (clear (set_pos (set_pos s 0) (length (sdata s)))
          = set_pos s (length (sdata s))) as ->.
  { destruct (good_flags _ Hg) as [He Hf].
    unfold clear, set_pos; simpl. by rewrite He, Hf. }
  rewrite !(to_int_small (sizeof_int * _))
    by (unfold sizeof_int, int_max in *; lia).
  rewrite to_int_small by (unfold sizeof_int, int_max in *; lia).
  rewrite seekg_good by done.
  f_equal; [f_equal; lia|].
  unfold set_pos; simpl. apply ifstream_eta.
Qed.

(** ** Chunks and run files *)

Lemma to_string_inj a b : to_string a = to_string b → a = b.
Proof. unfold to_string. apply (inj pretty). Qed.

Lemma chunks_fuel_irrel m l fuel1 fuel2 :
  (0 < m)%nat → (length l ≤ fuel1)%nat → (length l ≤ fuel2)%nat →
  chunks fuel1 m l = chunks fuel2 m l.
Proof.
  intros Hm. revert l fuel2.
  induction fuel1 as [|fuel1 IH]; intros l fuel2 H1 H2.
  { destruct l; simpl in *; [by destruct fuel2|lia]. }
  destruct l as [|x l]; [by destruct fuel2|].
  destruct fuel2 as [|fuel2]; [simpl in *; lia|].
  cbn [chunks]. f_equal.
  apply IH; rewrite length_drop; simpl in *; lia.
Qed.

Lemma chunks_fuel m l fuel :
  (0 < m)%nat → (length l ≤ fuel)%nat →
  chunks fuel m l = chunks (length l) m l.
Proof. intros. by apply chunks_fuel_irrel. Qed.

Lemma chunks_concat m l fuel :
  (0 < m)%nat → (length l ≤ fuel)%nat → concat (chunks fuel m l) = l.
Proof.
  intros Hm. revert l.
  induction fuel as [|fuel IH]; intros l Hl.
  { destruct l; simpl in *; [done|lia]. }
  destruct l as [|x l]; [done|].
  cbn [chunks concat].
  rewrite IH by (rewrite length_drop; simpl in *; lia).
  apply take_drop.
Qed.

Lemma chunks_Forall m l fuel :
  (0 < m)%nat →
  Forall (λ c, c ≠ [] ∧ (length c ≤ m)%nat) (chunks fuel m l).
Proof.
  intros Hm. revert l.
  induction fuel as [|fuel IH]; intros l; [by constructor|].
  destruct l as [|x l]; [by constructor|].
  cbn [chunks]. constructor; [|apply IH].
  split.
  - destruct m; [lia|done].
  - rewrite length_take. lia.
Qed.

(** The number of chunks is the length divided by [m], rounded up. *)
Lemma chunks_length m l fuel :
  (0 < m)%nat → (length l ≤ fuel)%nat →
  Z.of_nat (length (chunks fuel m l))
  = (Z.of_nat (length l) + Z.of_nat m - 1) / Z.of_nat m.
Proof.
  intros Hm. revert l.
  induction fuel as [|fuel IH]; intros l Hl.
  { destruct l; simpl in *; [|lia].
    symmetry. apply Z.div_small. lia. }
  destruct l as [|x l].
  { simpl. symmetry. apply Z.div_small. lia. }
  cbn [chunks].
  change (length (take m (x :: l) :: chunks fuel m (drop m (x :: l))))
    with (S (length (chunks fuel m (drop m (x :: l))))).
  rewrite Nat2Z.inj_succ.
  rewrite IH by (rewrite length_drop; simpl in *; lia).
  rewrite length_drop.
  remember (length (x :: l)) as n eqn:Hn.
  assert (0 < n)%nat by (subst n; simpl; lia).
  destruct (decide (n ≤ m)%nat) as [Hle|Hgt].
  - replace (Z.of_nat (n - m)) with 0 by lia.
    rewrite (Z.div_small (0 + _ - 1)) by lia.
    apply (Z.div_unique_pos _ _ _ (Z.of_nat n - 1)); lia.
  - replace (Z.of_nat n + Z.of_nat m - 1)
      with (Z.of_nat (n - m) + Z.of_nat m - 1 + 1 * Z.of_nat m) by lia.
    rewrite Z.div_add by lia. lia.
Qed.

(** The [i]-th chunk is the [i]-th slice of [m] elements. *)
Lemma chunks_lookup m l fuel i c :
  chunks fuel m l !! i = Some c → c = take m (drop (i * m) l).
Proof.
  revert l i.
  induction fuel as [|fuel IH]; intros l i; [done|].
  destruct l as [|x l]; [done|].
  cbn [chunks]. destruct i as [|i].
  - by intros [= <-].
  - intros Hi. apply IH in Hi as ->.
    by rewrite drop_drop.
Qed.

Lemma write_runs_lookup_other runs name fs s :
  (∀ i : nat, (i < length runs)%nat → s ≠ to_string (name + Z.of_nat i)) →
  write_runs name runs fs !! s = fs !! s.
Proof.
  revert name fs.
  induction runs as [|r runs IH]; intros name fs Hs; [done|].
  cbn [write_runs]. rewrite IH.
  - apply lookup_insert_ne. intros Heq.
    apply (Hs 0%nat); [simpl; lia|]. by rewrite Z.add_0_r.
  - intros i Hi. replace (name + 1 + Z.of_nat i)
      with (name + Z.of_nat (S i)) by lia.
    apply Hs. simpl. lia.
Qed.

Lemma write_runs_lookup runs name fs (i : nat) :
  (i < length runs)%nat →
  write_runs name runs fs !! to_string (name + Z.of_nat i) = runs !! i.
Proof.
  revert name fs i.
  induction runs as [|r runs IH]; intros name fs i Hi; [simpl in Hi; lia|].
  cbn [write_runs]. destruct i as [|i].
  - rewrite write_runs_lookup_other.
    + rewrite Z.add_0_r. apply lookup_insert_eq.
    + intros j _ Heq. apply to_string_inj in Heq. lia.
  - replace (name + Z.of_nat (S i)) with (name + 1 + Z.of_nat i) by lia.
    rewrite IH by (simpl in Hi; lia). done.
Qed.
(** ** Run generation *)

Lemma read_ints_good s n :
  good s = true → (spos s + n ≤ length (sdata s))%nat →
  read_ints n s = (take n (drop (spos s) (sdata s)), set_pos s (spos s + n)).
Proof.
  intros Hg Hn. unfold read_ints.
  rewrite sentry_good by done.
  destruct (good_flags _ Hg) as [_ ->].
  assert (length (take n (drop (spos s) (sdata s))) = n) as Hlen.
  { rewrite length_take, length_drop. lia. }
  rewrite Hlen. rewrite decide_False by lia. done.
Qed.

Lemma numToRead_bound M st :
  numToRead M st ≤ M ∧ numToRead M st ≤ amountLeftToRead st.
Proof. unfold numToRead. case_decide; lia. Qed.

Lemma makeTempFiles_loop_spec fuel M st l :
  1 ≤ M →
  good (unsortedFile st) = true →
  l = take (Z.to_nat (amountLeftToRead st))
        (drop (spos (unsortedFile st)) (sdata (unsortedFile st))) →
  Z.of_nat (length l) = amountLeftToRead st →
  (length l ≤ fuel)%nat →
  ∃ st',
    makeTempFiles_loop fuel M st = Normal st'
    ∧ g_fs st' = write_runs (fileNumber st) (sorted_chunks (Z.to_nat M) l) (g_fs st)
    ∧ fileNumber st' = fileNumber st + Z.of_nat (length (sorted_chunks (Z.to_nat M) l)).
Proof.
  intros HM. revert st l.
  induction fuel as [|fuel IH]; intros st l Hg Hl Hlen Hfuel.
  { destruct l; [|simpl in Hfuel; lia].
    exists st. simpl in *. rewrite decide_False by lia.
    split_and!; [done..|lia]. }
  cbn [makeTempFiles_loop].
  destruct (decide (amountLeftToRead st > 0)) as [Hpos|Hzero]; cycle 1.
  { destruct l; [|simpl in Hlen; lia].
    exists st. split_and!; [done..|simpl; lia]. }
  unfold makeTempFiles_body.
  pose proof (numToRead_bound M st) as [HnM Hna].
  assert (1 ≤ numToRead M st) as Hn1 by (unfold numToRead; case_decide; lia).
  rewrite decide_False by lia.
  set (f := unsortedFile st) in *.
  set (n := Z.to_nat (numToRead M st)).
  assert (length l ≤ length (sdata f) - spos f)%nat as Havail.
  { rewrite Hl, length_take, length_drop. lia. }
  rewrite read_ints_good by (done || lia).
  assert (length (take n (drop (spos f) (sdata f))) = n) as Hbuf.
  { rewrite length_take, length_drop. lia. }
  rewrite decide_False by lia.
  cbn [mbind outcome_bind].
  assert (take n (drop (spos f) (sdata f)) = take (Z.to_nat M) l) as Hchunk.
  { rewrite Hl, take_take. f_equal. unfold n, numToRead. case_decide; lia. }
  match goal with
  | |- context [makeTempFiles_loop fuel M ?s] =>
      destruct (IH s (drop (Z.to_nat M) l)) as (st' & Hrun & Hfs & Hnum);
        [| | | | exists st'; split; [exact Hrun|]]
  end.
  - done.
  - cbn [unsortedFile amountLeftToRead set_pos spos sdata].
    rewrite Hl. fold f.
    rewrite <-drop_drop.
    unfold n, numToRead. case_decide.
    + rewrite drop_ge by (rewrite length_take, length_drop; lia).
      by replace (Z.to_nat (amountLeftToRead st - amountLeftToRead st)) with 0%nat by lia.
    + rewrite (take_drop_commute (drop _ _)). do 2 f_equal. lia.
  - cbn [amountLeftToRead]. rewrite length_drop.
    unfold numToRead. case_decide; lia.
  - rewrite length_drop. lia.
  - cbn [g_fs fileNumber] in Hfs, Hnum.
    destruct l as [|x l']; [simpl in Hlen; lia|].
    unfold sorted_chunks in *. cbn [length chunks fmap list_fmap write_runs].
    rewrite Hfs, Hnum, Hchunk.
    rewrite (chunks_fuel_irrel _ _ (length (drop (Z.to_nat M) (x :: l'))) (length l'))
      by (rewrite ?length_drop; simpl; lia).
    split; [done|]. simpl length. lia.
Qed.
Lemma to_int_range z : - 2 ^ 31 ≤ to_int z ≤ int_max.
Proof.
  unfold to_int, int_max.
  pose proof (Z.mod_pos_bound (z + 2 ^ 31) (2 ^ 32)). lia.
Qed.

Lemma to_int_idemp z : to_int (to_int z) = to_int z.
Proof. apply to_int_small, to_int_range. Qed.

Lemma int_count_eq n : int_count n = to_int (sizeof_int * Z.of_nat n) / sizeof_int.
Proof.
  unfold int_count, div_sizeof.
  pose proof (to_int_range (sizeof_int * Z.of_nat n)) as Hr.
  set (b := to_int (sizeof_int * Z.of_nat n)) in *.
  unfold to_size_t, sizeof_int, int_max in *.
  destruct (decide (0 ≤ b)) as [Hb|Hb].
  - rewrite (Z.mod_small b) by lia.
    apply to_int_small. unfold int_max.
    pose proof (Z.div_pos b 4). 
    assert (b / 4 ≤ b) by (apply Z.div_le_upper_bound; lia). lia.
  - replace (b mod 2 ^ 64) with (b + 2 ^ 62 * 4).
    2:{ apply (Z.mod_unique_pos _ _ (-1)); lia. }
    rewrite Z.div_add by lia.
    unfold to_int.
    replace (b / 4 + 2 ^ 62 + 2 ^ 31) with (b / 4 + 2 ^ 31 + 2 ^ 30 * 2 ^ 32) by lia.
    rewrite Z.mod_add by lia.
    assert (- 2 ^ 29 ≤ b / 4) by (apply Z.div_le_lower_bound; lia).
    assert (b / 4 < 0) by (apply Z.div_lt_upper_bound; lia).
    rewrite Z.mod_small by lia. lia.
Qed.

Lemma int_count_small n :
  sizeof_int * Z.of_nat n ≤ int_max → int_count n = Z.of_nat n.
Proof.
  intros Hn. rewrite int_count_eq.
  rewrite to_int_small by (unfold sizeof_int, int_max in *; lia).
  unfold sizeof_int. rewrite Z.mul_comm, Z.div_mul; lia.
Qed.

(** The count never exceeds the number of [int]s in the file, and it is
    below [2^29]. *)
Lemma int_count_le n : int_count n ≤ Z.of_nat n ∧ sizeof_int * int_count n ≤ int_max.
Proof.
  rewrite int_count_eq.
  pose proof (to_int_range (sizeof_int * Z.of_nat n)) as Hr.
  assert (to_int (sizeof_int * Z.of_nat n) ≤ sizeof_int * Z.of_nat n) as Hle.
  { unfold to_int, sizeof_int.
    destruct (decide (4 * Z.of_nat n + 2 ^ 31 < 2 ^ 32)).
    - rewrite Z.mod_small by lia. lia.
    - pose proof (Z.mod_pos_bound (4 * Z.of_nat n + 2 ^ 31) (2 ^ 32)). lia. }
  unfold sizeof_int, int_max in *.
  set (b := to_int (4 * Z.of_nat n)) in *.
  pose proof (Z.mul_div_le b 4).
  split; [|lia].
  apply Z.div_le_upper_bound; lia.
Qed.

Lemma fileLen_stream_of d :
  fileLen (stream_of d)
  = (to_int (sizeof_int * Z.of_nat (length d)), stream_of d).
Proof.
  unfold fileLen.
  rewrite tellg_good by done.
  unfold seekg_beg. cbn [spos stream_of].
  change (to_int (sizeof_int * Z.of_nat 0)) with 0.
  change 0 with (sizeof_int * Z.of_nat 0) at 1.
  rewrite seekg_good by done.
  rewrite tellg_good by done. cbn [spos set_pos].
  unfold seekg_end. cbn [sdata set_pos].
  rewrite seekg_good by done.
  rewrite tellg_good by done. cbn [spos set_pos].
  change (to_int (sizeof_int * Z.of_nat 0)) with 0.
  rewrite Z.sub_0_r, to_int_idemp. f_equal.
Qed.

Lemma makeTempFiles_init_stream fs d :
  makeTempFiles_init fs (stream_of d)
  = {| g_fs := fs; unsortedFile := stream_of d;
       amountLeftToRead := int_count (length d); fileNumber := 0 |}.
Proof. unfold makeTempFiles_init. by rewrite fileLen_stream_of. Qed.

(** [makeTempFiles] on a freshly opened file: the runs are the sorted
    chunks of the [int]s it counted. *)
Lemma makeTempFiles_spec fuel fs d M :
  1 ≤ M → int_count (length d) ≤ Z.of_nat fuel →
  let runs := sorted_chunks (Z.to_nat M) (take (Z.to_nat (int_count (length d))) d) in
  makeTempFiles fuel fs (stream_of d) M
  = Normal (write_runs 0 runs fs, Z.of_nat (length runs)).
Proof.
  intros HM Hfuel runs. unfold makeTempFiles.
  rewrite makeTempFiles_init_stream.
  pose proof (int_count_le (length d)) as [Hle _].
  destruct (decide (0 ≤ int_count (length d))) as [Hpos|Hneg].
  - edestruct (makeTempFiles_loop_spec fuel M) as (st' & -> & Hfs & Hnum);
      [done| | | | |].
    + done.
    + reflexivity.
    + cbn [amountLeftToRead unsortedFile stream_of spos sdata].
      rewrite drop_0, length_take. lia.
    + cbn [amountLeftToRead unsortedFile stream_of spos sdata].
      rewrite drop_0, length_take. lia.
    + cbn [mbind outcome_bind]. rewrite Hfs, Hnum. cbn. done.
  - destruct fuel; cbn [makeTempFiles_loop amountLeftToRead];
      rewrite decide_False by lia; cbn [mbind outcome_bind g_fs fileNumber];
      subst runs; replace (Z.to_nat (int_count (length d))) with 0%nat by lia;
      done.
Qed.
(** ** Heaps *)

Lemma parent_lt (i : nat) : (0 < i)%nat → ((i - 1) / 2 < i)%nat.
Proof.
  intros Hi. apply Nat.Div0.div_lt_upper_bound. lia.
Qed.

Section heap_facts.
Context {A : Type} (comp : A → A → bool).
Context `{!Reflexive (comp_le comp), !Transitive (comp_le comp)}.

(** The first element of a heap compares after no other element. *)
Lemma is_heap_front x v y :
  is_heap comp (x :: v) → y ∈ x :: v → comp x y = false.
Proof.
  intros Hheap Hy.
  apply list_elem_of_lookup in Hy as [i Hi].
  revert y Hi. induction (lt_wf i) as [i _ IH]. intros y Hi.
  destruct (decide (i = 0)%nat) as [->|Hne].
  { injection Hi as <-. apply (reflexivity (R := comp_le comp)). }
  assert (0 < i)%nat as Hpos by lia.
  pose proof (parent_lt i Hpos) as Hlt.
  destruct (lookup_lt_is_Some_2 (x :: v) ((i - 1) / 2)) as [p Hp].
  { apply lookup_lt_Some in Hi. lia. }
  apply (transitivity (R := comp_le comp) (y := p)).
  - apply (IH _ Hlt _ Hp).
  - apply (Hheap i y p Hpos Hi Hp).
Qed.

Lemma StronglySorted_lookup_lt (R : relation A) v (i j : nat) a b :
  StronglySorted R v → v !! i = Some a → v !! j = Some b → (i < j)%nat → R a b.
Proof.
  intros Hs. revert i j a b.
  induction Hs as [|x v Hs IH Hall]; intros i j a b Hi Hj Hlt; [done|].
  destruct j as [|j]; [lia|]. destruct i as [|i].
  - injection Hi as <-. simpl in Hj.
    rewrite Forall_forall in Hall. apply Hall.
    eapply list_elem_of_lookup_2. exact Hj.
  - simpl in Hi, Hj. apply (IH i j); [done..|lia].
Qed.

(** A range sorted for the induced order is a heap. *)
Lemma Sorted_is_heap v : Sorted (comp_le comp) v → is_heap comp v.
Proof.
  intros Hs%Sorted_StronglySorted; [|done].
  intros i x p Hi Hx Hp.
  apply (StronglySorted_lookup_lt _ v ((i - 1) / 2) i p x Hs Hp Hx).
  by apply parent_lt.
Qed.

Lemma is_heap_nil : is_heap comp [].
Proof. intros i x p _ Hx. done. Qed.

End heap_facts.

(** Both implementations keep the contract of the heap algorithms. *)
Lemma sorting_heap_laws {A} (comp : A → A → bool)
  `{!Reflexive (comp_le comp), !Transitive (comp_le comp), !Total (comp_le comp)} :
  StdHeapLaws (sorting_heap A) comp.
Proof.
  split; cbn [make_heap pop_heap push_heap sorting_heap].
  - intros v. apply merge_sort_Permutation.
  - intros v. apply Sorted_is_heap; [done|]. apply Sorted_merge_sort, _.
  - intros x v _. exists (merge_sort (comp_le comp) v). split_and!.
    + done.
    + apply merge_sort_Permutation.
    + apply Sorted_is_heap; [done|]. apply Sorted_merge_sort, _.
  - intros v x _. apply merge_sort_Permutation.
  - intros v x _. apply Sorted_is_heap; [done|]. apply Sorted_merge_sort, _.
Qed.

Lemma sorting_heap_rev_laws {A} (comp : A → A → bool)
  `{!Reflexive (comp_le comp), !Transitive (comp_le comp), !Total (comp_le comp)} :
  StdHeapLaws (sorting_heap_rev A) comp.
Proof.
  split; cbn [make_heap pop_heap push_heap sorting_heap_rev].
  - intros v. by rewrite merge_sort_Permutation, reverse_Permutation.
  - intros v. apply Sorted_is_heap; [done|]. apply Sorted_merge_sort, _.
  - intros x v _. exists (merge_sort (comp_le comp) (reverse v)). split_and!.
    + done.
    + by rewrite merge_sort_Permutation, reverse_Permutation.
    + apply Sorted_is_heap; [done|]. apply Sorted_merge_sort, _.
  - intros v x _. by rewrite merge_sort_Permutation, reverse_Permutation.
  - intros v x _. apply Sorted_is_heap; [done|]. apply Sorted_merge_sort, _.
Qed.

Global Existing Instance sorting_heap_laws.
Global Existing Instance sorting_heap_rev_laws.

(** The order of [FileInteger::operator()] is the order of the values. *)
Lemma FileInteger_cmp_le a b :
  comp_le FileInteger_cmp a b ↔ value a ≤ value b.
Proof.
  unfold comp_le, FileInteger_cmp. rewrite bool_decide_eq_false. lia.
Qed.

Lemma FileInteger_cmp_refl : Reflexive (comp_le FileInteger_cmp).
Proof. intros a. apply FileInteger_cmp_le. lia. Qed.

Lemma FileInteger_cmp_trans : Transitive (comp_le FileInteger_cmp).
Proof. intros a b c. rewrite !FileInteger_cmp_le. lia. Qed.

Lemma FileInteger_cmp_total : Total (comp_le FileInteger_cmp).
Proof. intros a b. rewrite !FileInteger_cmp_le. lia. Qed.

Global Existing Instance FileInteger_cmp_refl.
Global Existing Instance FileInteger_cmp_trans.
Global Existing Instance FileInteger_cmp_total.


Lemma FileInteger_heap_front x v fi :
  is_heap FileInteger_cmp (x :: v) → fi ∈ x :: v → value x ≤ value fi.
Proof.
  intros Hh Hfi. apply FileInteger_cmp_le.
  by apply (is_heap_front FileInteger_cmp x v fi).
Qed.
(** ** The binary heap *)

Lemma parent_child (i h : nat) :
  (0 < i)%nat → ((i - 1) / 2 = h ↔ i = 2 * h + 1 ∨ i = 2 * h + 2)%nat.
Proof.
  intros Hi.
  pose proof (Nat.div_mod_eq (i - 1) 2) as Hdiv.
  pose proof (Nat.mod_upper_bound (i - 1) 2 ltac:(lia)) as Hmod.
  lia.
Qed.

Section binary_heap_facts.
Context {A : Type} (comp : A → A → bool).
Context `{!Transitive (comp_le comp), !Total (comp_le comp)}.

Lemma comp_true_le a b : comp a b = true → comp b a = false.
Proof.
  intros Hab. destruct (total (comp_le comp) a b) as [Hle|Hle]; [|done].
  unfold comp_le in Hle. congruence.
Qed.

Lemma comp_le_trans a b c : comp a b = false → comp b c = false → comp a c = false.
Proof. apply (transitivity (R := comp_le comp)). Qed.

Lemma is_heap_heap_from v : is_heap comp v ↔ heap_from comp 0 (length v) v.
Proof.
  split.
  - intros Hh i x p [Hi _] _ Hx Hp. by apply (Hh i x p).
  - intros Hh i x p Hi Hx Hp. apply (Hh i x p); [|lia|done..].
    apply lookup_lt_Some in Hx. lia.
Qed.

(** Putting a value into the hole gives a heap when the value fits
    between the parent and the children of the hole. *)
Lemma place_heap top len hole v x :
  (hole < length v)%nat →
  heap_except comp top len hole v →
  (∀ p, (0 < hole)%nat → (top ≤ (hole - 1) / 2)%nat →
        v !! ((hole - 1) / 2)%nat = Some p → comp p x = false) →
  (∀ (c : nat) y, (0 < c < len)%nat → ((c - 1) / 2)%nat = hole →
        v !! c = Some y → comp x y = false) →
  heap_from comp top len (<[hole := x]> v).
Proof.
  intros Hlen Hexc Hup Hdown i xi p Hi Htop Hxi Hp.
  pose proof (parent_lt i ltac:(lia)) as Hlt.
  destruct (decide (i = hole)) as [->|Hne].
  - rewrite list_lookup_insert_eq in Hxi by done. injection Hxi as <-.
    rewrite list_lookup_insert_ne in Hp by lia.
    apply Hup; [lia|done..].
  - rewrite list_lookup_insert_ne in Hxi by done.
    destruct (decide ((i - 1) / 2 = hole)%nat) as [Hpar|Hpar].
    + rewrite Hpar, list_lookup_insert_eq in Hp by done. injection Hp as <-.
      by apply (Hdown i).
    + rewrite list_lookup_insert_ne in Hp by done.
      by apply (Hexc i).
Qed.

Lemma insert_swap_perm (v : list A) (i j : nat) x y :
  (i < length v)%nat → v !! j = Some y → i ≠ j →
  <[j := x]> (<[i := y]> v) ≡ₚ <[i := x]> v.
Proof.
  intros Hi Hj Hne.
  rewrite <-(Permutation_insert_swap (<[i := x]> v) i j x y).
  - by rewrite list_insert_insert_eq.
  - by apply list_lookup_insert_eq.
  - by rewrite list_lookup_insert_ne.
Qed.

Lemma comp_irrefl a : comp a a = false.
Proof. by destruct (total (comp_le comp) a a). Qed.

Lemma greater_child_Some v len hole c b :
  greater_child comp v len hole = Some (c, b) →
  (hole < c < len)%nat ∧ ((c - 1) / 2 = hole)%nat ∧ v !! c = Some b
  ∧ ∀ (d : nat) y, (0 < d < len)%nat → ((d - 1) / 2 = hole)%nat →
      v !! d = Some y → comp b y = false.
Proof.
  unfold greater_child. case_decide as Hl; [|done].
  destruct (v !! (2 * hole + 1)%nat) as [a|] eqn:Ha; [|done].
  assert (∀ d : nat, (0 < d)%nat → ((d - 1) / 2 = hole)%nat →
            d = (2 * hole + 1)%nat ∨ d = (2 * hole + 2)%nat) as Hchild.
  { intros d Hd Hp. by apply parent_child. }
  assert (((2 * hole + 1 - 1) / 2 = hole)%nat) as Hpl by (apply parent_child; lia).
  assert (((2 * hole + 2 - 1) / 2 = hole)%nat) as Hpr by (apply parent_child; lia).
  case_decide as Hr.
  - destruct (v !! (2 * hole + 2)%nat) as [b'|] eqn:Hb.
    + destruct (comp a b') eqn:Hab; intros [= <- <-].
      * split_and!; [lia..|done|done|].
        intros d y Hd Hp Hy. destruct (Hchild d) as [-> | ->]; [lia|done|..].
        -- rewrite Ha in Hy. injection Hy as <-. by apply comp_true_le.
        -- rewrite Hb in Hy. injection Hy as <-. apply comp_irrefl.
      * split_and!; [lia..|done|done|].
        intros d y Hd Hp Hy. destruct (Hchild d) as [-> | ->]; [lia|done|..].
        -- rewrite Ha in Hy. injection Hy as <-. apply comp_irrefl.
        -- rewrite Hb in Hy. by injection Hy as <-.
    + intros [= <- <-]. split_and!; [lia..|done|done|].
      intros d y Hd Hp Hy. destruct (Hchild d) as [-> | ->]; [lia|done|..].
      * rewrite Ha in Hy. injection Hy as <-. apply comp_irrefl.
      * congruence.
  - intros [= <- <-]. split_and!; [lia..|done|done|].
    intros d y Hd Hp Hy. destruct (Hchild d) as [-> | ->]; [lia|done|..].
    + rewrite Ha in Hy. injection Hy as <-. apply comp_irrefl.
    + lia.
Qed.

Lemma greater_child_None v len hole (d : nat) :
  (len ≤ length v)%nat → greater_child comp v len hole = None →
  (0 < d < len)%nat → ((d - 1) / 2)%nat ≠ hole.
Proof.
  unfold greater_child. intros Hlen Hnone Hd Hp.
  apply parent_child in Hp; [|lia].
  case_decide as Hl; [|lia].
  destruct (v !! (2 * hole + 1)%nat) as [a|] eqn:Ha.
  - destruct (if decide (2 * hole + 2 < len)%nat then v !! (2 * hole + 2)%nat else None);
      [destruct (comp a a0)|]; done.
  - apply lookup_ge_None in Ha. lia.
Qed.

(** [sift_down] from a hole below which only the hole's own position
    may be out of order makes the first [len] positions a heap from
    [top] on; it permutes the elements and leaves the positions from
    [len] on alone. *)
Lemma sift_down_spec fuel v len hole x top :
  (len ≤ length v)%nat → (hole < len)%nat → (len ≤ hole + fuel)%nat →
  heap_except comp top len hole v →
  (∀ p, (0 < hole)%nat → (top ≤ (hole - 1) / 2)%nat →
        v !! ((hole - 1) / 2)%nat = Some p →
        comp p x = false
        ∧ ∀ (c : nat) y, (0 < c < len)%nat → ((c - 1) / 2)%nat = hole →
            v !! c = Some y → comp p y = false) →
  heap_from comp top len (sift_down comp fuel v len hole x)
  ∧ sift_down comp fuel v len hole x ≡ₚ <[hole := x]> v
  ∧ length (sift_down comp fuel v len hole x) = length v
  ∧ (∀ j : nat, (len ≤ j)%nat → sift_down comp fuel v len hole x !! j = v !! j).
Proof.
  revert v hole.
  induction fuel as [|fuel IH]; intros v hole Hlen Hhole Hfuel Hexc Hup; [lia|].
  cbn [sift_down].
  assert (heap_from comp top len (<[hole := x]> v)
          ∧ <[hole := x]> v ≡ₚ <[hole := x]> v
          ∧ length (<[hole := x]> v) = length v
          ∧ (∀ j : nat, (len ≤ j)%nat → <[hole := x]> v !! j = v !! j)
          ↔ heap_from comp top len (<[hole := x]> v)) as Hplace.
  { split; [by intros [? _]|]. intros Hh. split_and!; [done|done|apply length_insert|].
    intros j Hj. apply list_lookup_insert_ne. lia. }
  destruct (greater_child comp v len hole) as [[c b]|] eqn:Hgc.
  - apply greater_child_Some in Hgc as (Hc & Hpc & Hb & Hdom).
    destruct (comp x b) eqn:Hxb.
    + (* the greater child moves up *)
      destruct (IH (<[hole := b]> v) c) as (Hheap & Hperm & Hl & Hframe).
      * by rewrite length_insert.
      * lia.
      * lia.
      * intros i xi p Hi Htop Hic Hpic Hxi Hp.
        pose proof (parent_lt i ltac:(lia)) as Hlt.
        destruct (decide (i = hole)) as [->|Hih].
        -- rewrite list_lookup_insert_eq in Hxi by lia. injection Hxi as <-.
           rewrite list_lookup_insert_ne in Hp by lia.
           destruct (Hup p) as [_ Hgrand]; [lia|done..|].
           apply (Hgrand c); [lia|done..].
        -- rewrite list_lookup_insert_ne in Hxi by done.
           destruct (decide ((i - 1) / 2 = hole)%nat) as [Hpar|Hpar].
           ++ rewrite Hpar, list_lookup_insert_eq in Hp by lia. injection Hp as <-.
              by apply (Hdom i).
           ++ rewrite list_lookup_insert_ne in Hp by done.
              by apply (Hexc i).
      * intros p _ Htop Hp. rewrite Hpc in Hp.
        rewrite list_lookup_insert_eq in Hp by lia. injection Hp as <-.
        split; [by apply comp_true_le|].
        intros d y Hd Hpd Hy.
        pose proof (parent_lt d ltac:(lia)) as Hlt.
        rewrite list_lookup_insert_ne in Hy by lia.
        apply (Hexc d y b); [done|lia|lia|lia|done|by rewrite Hpd].
      * split_and!; [done| |by rewrite Hl, length_insert|].
        -- rewrite Hperm. apply insert_swap_perm; [lia|done|lia].
        -- intros j Hj. rewrite Hframe by done.
           apply list_lookup_insert_ne. lia.
    + (* the value stays *)
      apply Hplace. apply place_heap; [lia|done| |].
      * intros p Hpos Htop Hp. by apply (Hup p).
      * intros d y Hd Hpd Hy.
        apply (comp_le_trans x b y); [done|]. by apply (Hdom d).
  - apply Hplace. apply place_heap; [lia|done| |].
    + intros p Hpos Htop Hp. by apply (Hup p).
    + intros d y Hd Hpd Hy.
      by destruct (greater_child_None v len hole d Hlen Hgc Hd).
Qed.

(** [sift_up] from a hole above which only the hole's own position may
    be out of order makes the range a heap, and permutes the elements. *)
Lemma sift_up_spec fuel v hole x :
  (hole < length v)%nat → (hole < fuel)%nat →
  heap_except comp 0 (length v) hole v →
  (∀ (c : nat) y, (0 < c)%nat → ((c - 1) / 2)%nat = hole → v !! c = Some y →
        comp x y = false
        ∧ ∀ p, (0 < hole)%nat → v !! ((hole - 1) / 2)%nat = Some p →
            comp p y = false) →
  is_heap comp (sift_up comp fuel v hole x)
  ∧ sift_up comp fuel v hole x ≡ₚ <[hole := x]> v.
Proof.
  revert v hole.
  induction fuel as [|fuel IH]; intros v hole Hhole Hfuel Hexc Hdown; [lia|].
  assert ((∀ p, (0 < hole)%nat → v !! ((hole - 1) / 2)%nat = Some p →
                 comp p x = false) →
          is_heap comp (<[hole := x]> v)
          ∧ <[hole := x]> v ≡ₚ <[hole := x]> v) as Hplace.
  { intros Hup. split; [|done].
    apply is_heap_heap_from. rewrite length_insert.
    apply place_heap; [done|done| |].
    - intros p Hpos _ Hp. by apply Hup.
    - intros c y Hc Hpc Hy. by destruct (Hdown c y) as [? _]; [lia|..]. }
  cbn [sift_up]. destruct hole as [|h].
  { apply Hplace. intros p Hpos. lia. }
  set (hole := S h) in *.
  pose proof (parent_lt hole ltac:(lia)) as Hlt.
  destruct (lookup_lt_is_Some_2 v ((hole - 1) / 2)) as [p Hp]; [lia|].
  rewrite Hp. destruct (comp p x) eqn:Hpx.
  - (* the parent moves down *)
    destruct (IH (<[hole := p]> v) ((hole - 1) / 2)%nat) as [Hheap Hperm].
    + rewrite length_insert. lia.
    + lia.
    + rewrite length_insert. intros i xi pi Hi _ Hih Hpih Hxi Hpi.
      destruct (decide (i = hole)) as [->|Hne]; [done|].
      rewrite list_lookup_insert_ne in Hxi by done.
      destruct (decide ((i - 1) / 2 = hole)%nat) as [Hpar|Hpar].
      * rewrite Hpar, list_lookup_insert_eq in Hpi by done. injection Hpi as <-.
        destruct (Hdown i xi) as [_ Hgrand]; [lia|done|done|].
        apply Hgrand; [lia|done].
      * rewrite list_lookup_insert_ne in Hpi by done.
        apply (Hexc i xi pi); [done|lia|done..].
    + intros c y Hc Hpc Hy.
      assert (∀ pp, (0 < (hole - 1) / 2)%nat →
                <[hole := p]> v !! (((hole - 1) / 2 - 1) / 2)%nat = Some pp →
                comp pp p = false) as Hpp.
      { intros pp Hpos Hpp.
        pose proof (parent_lt ((hole - 1) / 2) Hpos) as Hlt'.
        rewrite list_lookup_insert_ne in Hpp by lia.
        apply (Hexc ((hole - 1) / 2)%nat p pp); [lia|lia|lia|lia|done|done]. }
      destruct (decide (c = hole)) as [->|Hne].
      * rewrite list_lookup_insert_eq in Hy by done. injection Hy as <-.
        split; [by apply comp_true_le|done].
      * rewrite list_lookup_insert_ne in Hy by done.
        assert (comp p y = false) as Hpy.
        { apply (Hexc c y p); [|lia|done|lia|done|by rewrite Hpc].
          apply lookup_lt_Some in Hy. lia. }
        split.
        -- apply (comp_le_trans x p y); [by apply comp_true_le|done].
        -- intros pp Hpos Hpp'. apply (comp_le_trans pp p y); [by apply Hpp|done].
    + split; [done|]. rewrite Hperm.
      apply insert_swap_perm; [done|done|lia].
  - apply Hplace. intros p' _ Hp'. congruence.
Qed.

Lemma binary_push_heap_spec v x :
  is_heap comp v →
  is_heap comp (binary_push_heap comp (v ++ [x]))
  ∧ binary_push_heap comp (v ++ [x]) ≡ₚ v ++ [x].
Proof.
  intros Hheap. unfold binary_push_heap. rewrite last_snoc.
  rewrite length_app. cbn [length].
  replace (length v + 1 - 1)%nat with (length v) by lia.
  destruct (sift_up_spec (length v + 1) (v ++ [x]) (length v) x) as [Hh Hp].
  - rewrite length_app. simpl. lia.
  - lia.
  - intros i xi p Hi _ Hih Hpih Hxi Hp.
    pose proof (parent_lt i ltac:(lia)) as Hlt.
    rewrite length_app in Hi. simpl in Hi.
    rewrite lookup_app_l in Hxi by lia.
    rewrite lookup_app_l in Hp by lia.
    apply (Hheap i xi p); [lia|done..].
  - intros c y Hc Hpc Hy. apply parent_child in Hpc; [|done].
    apply lookup_lt_Some in Hy. rewrite length_app in Hy. simpl in Hy. lia.
  - split; [done|]. rewrite Hp.
    rewrite list_insert_id; [done|]. apply list_lookup_middle. done.
Qed.

Lemma binary_pop_heap_spec x v :
  is_heap comp (x :: v) →
  ∃ v', binary_pop_heap comp (x :: v) = v' ++ [x] ∧ v' ≡ₚ v ∧ is_heap comp v'.
Proof.
  intros Hheap. unfold binary_pop_heap.
  destruct v as [|z v2].
  { exists []. split_and!; [done..|]. intros i a p _ Ha. done. }
  destruct (last (x :: z :: v2)) as [y|] eqn:Hlast;
    [|by apply last_None in Hlast].
  set (full := x :: z :: v2) in *.
  set (n := (length full - 1)%nat).
  assert (length full = S n) as Hlen by (unfold n, full; simpl; lia).
  assert (0 < n)%nat as Hn by (unfold n, full; simpl; lia).
  assert (full !! n = Some y) as Hy.
  { rewrite last_lookup in Hlast. by rewrite Hlen in Hlast. }
  destruct (sift_down_spec n (<[n := x]> full) n 0 y 0)
    as (Hh & Hp & Hl & Hframe).
  - rewrite length_insert. lia.
  - done.
  - lia.
  - intros i xi p Hi _ Hih Hpih Hxi Hpi.
    pose proof (parent_lt i ltac:(lia)) as Hlt.
    rewrite list_lookup_insert_ne in Hxi by lia.
    rewrite list_lookup_insert_ne in Hpi by lia.
    apply (Hheap i xi p); [lia|done..].
  - intros p Hpos. lia.
  - set (r := sift_down comp n (<[n := x]> full) n 0 y) in *.
    rewrite length_insert in Hl.
    assert (r = take n r ++ [x]) as Hr.
    { rewrite <-(take_drop n r) at 1. f_equal.
      assert (r !! n = Some x) as Hrn.
      { rewrite Hframe by done. apply list_lookup_insert_eq. lia. }
      apply list_eq. intros [|j].
      - by rewrite lookup_drop, Nat.add_0_r.
      - rewrite lookup_drop. trans (@None A); [|done].
        apply lookup_ge_None. lia. }
    exists (take n r). split_and!.
    + done.
    + apply (Permutation_cons_inv (a := x)).
      rewrite (Permutation_cons_append (take n r) x), <-Hr, Hp.
      rewrite (Permutation_insert_swap full n 0 y x); done.
    + intros i xi p Hi Hxi Hpi.
      apply lookup_take_Some in Hxi as [Hxi Hin].
      apply lookup_take_Some in Hpi as [Hpi _].
      apply (Hh i xi p); [lia|lia|done..].
Qed.

Lemma heapify_spec k v :
  heap_from comp k (length v) v →
  is_heap comp (heapify comp k v) ∧ heapify comp k v ≡ₚ v.
Proof.
  revert v. induction k as [|k IH]; intros v Hfrom.
  { split; [by apply is_heap_heap_from|done]. }
  cbn [heapify]. destruct (v !! k) as [x|] eqn:Hx.
  - destruct (sift_down_spec (length v) v (length v) k x k)
      as (Hh & Hp & Hl & _).
    + done.
    + by eapply lookup_lt_Some.
    + lia.
    + intros i xi p Hi Htop Hik Hpik Hxi Hpi.
      apply (Hfrom i xi p); [done|lia|done..].
    + intros p Hpos Htop. pose proof (parent_lt k Hpos). lia.
    + rewrite list_insert_id in Hp by done.
      destruct (IH (sift_down comp (length v) v (length v) k x)) as [Hheap Hperm].
      * by rewrite Hl.
      * split; [done|]. by rewrite Hperm.
  - apply IH. intros i xi p Hi Htop Hxi Hpi.
    apply lookup_ge_None in Hx.
    pose proof (parent_lt i ltac:(lia)). lia.
Qed.

Lemma binary_make_heap_spec v :
  is_heap comp (binary_make_heap comp v) ∧ binary_make_heap comp v ≡ₚ v.
Proof.
  apply heapify_spec. intros i xi p Hi Htop _ _. exfalso.
  pose proof (Nat.div_mod_eq (i - 1) 2) as Hd1.
  pose proof (Nat.mod_upper_bound (i - 1) 2 ltac:(lia)) as Hm1.
  pose proof (Nat.div_mod_eq (length v) 2) as Hd2.
  pose proof (Nat.mod_upper_bound (length v) 2 ltac:(lia)) as Hm2.
  lia.
Qed.

End binary_heap_facts.

(** The binary heap keeps the contract of the heap algorithms. *)
Lemma binary_heap_laws {A} (comp : A → A → bool)
  `{!Transitive (comp_le comp), !Total (comp_le comp)} :
  StdHeapLaws (binary_heap A) comp.
Proof.
  split; cbn [make_heap pop_heap push_heap binary_heap].
  - intros v. apply binary_make_heap_spec; done.
  - intros v. apply binary_make_heap_spec; done.
  - intros x v. by apply binary_pop_heap_spec.
  - intros v x Hh. by apply binary_push_heap_spec.
  - intros v x Hh. by apply binary_push_heap_spec.
Qed.

Global Existing Instance binary_heap_laws.


(** The implementations differ on equal values: the contract leaves the
    order of ties open. *)
Example heap_implementations_differ :
  let a := {| ptrFileReadFrom := 0; numLeftToRead := 0; value := 4 |} in
  let b := {| ptrFileReadFrom := 1; numLeftToRead := 0; value := 4 |} in
  make_heap (StdHeap := binary_heap FileInteger) FileInteger_cmp [a; b] = [a; b]
  ∧ make_heap (StdHeap := sorting_heap FileInteger) FileInteger_cmp [a; b] = [a; b]
  ∧ make_heap (StdHeap := sorting_heap_rev FileInteger) FileInteger_cmp [a; b] = [b; a].
Proof. split_and!; reflexivity. Qed.
(** ** The merge of one batch *)

Lemma heap_fuel_Permutation : Proper ((≡ₚ) ==> (=)) heap_fuel.
Proof.
  intros v1 v2 Hp. unfold heap_fuel.
  induction Hp; cbn [fmap list_fmap sum_list]; lia.
Qed.

Global Existing Instance heap_fuel_Permutation.

Lemma heap_fuel_cons fi v :
  heap_fuel (fi :: v) = S (Z.to_nat (numLeftToRead fi) + heap_fuel v).
Proof. done. Qed.

Lemma pending_Permutation files :
  Proper ((≡ₚ) ==> (≡ₚ)) (pending files).
Proof. intros v1 v2 Hp. unfold pending. by rewrite Hp. Qed.

Global Existing Instance pending_Permutation.

Lemma pending_cons files fi v :
  pending files (fi :: v) = value fi :: cursor_rest files fi ++ pending files v.
Proof. done. Qed.

Lemma cursor_rest_insert_ne files p s fi :
  ptrFileReadFrom fi ≠ p → cursor_rest (<[p := s]> files) fi = cursor_rest files fi.
Proof. intros Hne. unfold cursor_rest. by rewrite list_lookup_insert_ne. Qed.

Lemma pending_insert_ne files p s v :
  p ∉ ptrFileReadFrom <$> v → pending (<[p := s]> files) v = pending files v.
Proof.
  induction v as [|fi v IH]; [done|].
  rewrite fmap_cons, not_elem_of_cons. intros [Hne Hnin].
  rewrite !pending_cons, IH by done.
  by rewrite cursor_rest_insert_ne.
Qed.

Lemma cursor_ok_insert_ne files p s fi :
  ptrFileReadFrom fi ≠ p → cursor_ok files fi → cursor_ok (<[p := s]> files) fi.
Proof.
  intros Hne (s' & Hs' & Hrest). exists s'. split; [|done].
  by rewrite list_lookup_insert_ne.
Qed.

Lemma read_int_good s x rest :
  good s = true → remaining s = x :: rest →
  read_ints 1 s = ([x], set_pos s (spos s + 1))
  ∧ remaining (set_pos s (spos s + 1)) = rest.
Proof.
  unfold remaining. intros Hg Hrem.
  assert (spos s + 1 ≤ length (sdata s))%nat as Hlen.
  { assert (length (drop (spos s) (sdata s)) = S (length rest)) as Hl
      by (by rewrite Hrem).
    rewrite length_drop in Hl. lia. }
  rewrite read_ints_good by done. rewrite Hrem.
  split; [done|]. cbn [set_pos spos sdata].
  rewrite <-drop_drop, Hrem. done.
Qed.

Lemma TlRel_forall {A} (R : relation A) x l :
  (∀ y, y ∈ l → R y x) → TlRel R x l.
Proof.
  destruct l as [|y l _] using rev_ind; [constructor|].
  intros Hall. constructor. apply Hall. set_solver.
Qed.

Section batch.
Context `{H : StdHeap FileInteger} `{!StdHeapLaws H FileInteger_cmp}.

(** One iteration keeps the invariant and uses one unit of fuel. *)
Lemma heap_body_inv total st :
  heap_inv total st → fileData st ≠ [] →
  ∃ st', heap_body st = Normal st'
       ∧ heap_inv total st'
       ∧ S (heap_fuel (fileData st')) = heap_fuel (fileData st)
       ∧ length (filesToMerge st') = length (filesToMerge st).
Proof.
  intros [Hheap Hnd Hcur Hperm Hsort Hbelow] Hne.
  unfold heap_body.
  destruct (fileData st) as [|smallest v] eqn:Hfd; [done|].
  destruct (pop_heap_spec smallest v Hheap) as (v' & -> & Hv' & Hheap').
  rewrite removelast_last.
  apply Forall_cons in Hcur as [(s & Hs & Hg & Hleft & Hasc) Hcur].
  rewrite fmap_cons in Hnd. apply NoDup_cons in Hnd as [Hfresh Hnd].
  assert (∀ x, x ∈ written st ++ [value smallest] → x ≤ value smallest) as Hlast.
  { intros x [Hx|Hx%list_elem_of_singleton]%elem_of_app; [|lia].
    apply Hbelow; [done|]. apply list_elem_of_here. }
  assert (Sorted Z.le (written st ++ [value smallest])) as Hsort'.
  { apply Sorted_snoc; [done|]. apply TlRel_forall.
    intros y Hy. apply Hlast. set_solver. }
  assert (∀ fi, fi ∈ v → value smallest ≤ value fi) as Hmin.
  { intros fi Hfi. apply (FileInteger_heap_front smallest v); [done|set_solver]. }
  destruct (decide (numLeftToRead smallest > 0)) as [Hpos|Hzero].
  - rewrite Hs.
    destruct (remaining s) as [|nv rest] eqn:Hrem; [simpl in Hleft; lia|].
    destruct (read_int_good s nv rest Hg Hrem) as [-> Hrem'].
    set (s' := set_pos s (spos s + 1)) in *.
    set (next := {| ptrFileReadFrom := ptrFileReadFrom smallest;
                    numLeftToRead := numLeftToRead smallest - 1;
                    value := nv |}).
    assert (push_heap FileInteger_cmp (v' ++ [next]) ≡ₚ next :: v) as Hpush.
    { rewrite push_heap_perm by done. rewrite Hv'.
      symmetry. apply Permutation_cons_append. }
    assert (value smallest ≤ nv) as Hnv.
    { apply Sorted_inv in Hasc as [_ Hhd]. by apply HdRel_inv in Hhd. }
    eexists. split; [reflexivity|].
    cbn [fileData filesToMerge written]. split_and!.
    + constructor; cbn [fileData filesToMerge written].
      * by apply push_heap_is_heap.
      * rewrite Hpush, fmap_cons. by apply NoDup_cons.
      * rewrite Hpush. apply Forall_cons. split.
        -- exists s'. split_and!.
           ++ apply list_lookup_insert_eq. by eapply lookup_lt_Some.
           ++ done.
           ++ rewrite Hrem'. cbn [numLeftToRead next].
              rewrite Hleft. simpl length. lia.
           ++ rewrite Hrem'. by apply Sorted_inv in Hasc as [? _].
        -- apply Forall_forall. intros fi Hfi.
           apply cursor_ok_insert_ne.
           ++ intros Heq. apply Hfresh. rewrite <-Heq.
              by apply list_elem_of_fmap_2.
           ++ rewrite Forall_forall in Hcur. by apply Hcur.
      * rewrite Hpush, pending_cons, pending_insert_ne by done.
        assert (cursor_rest (<[ptrFileReadFrom smallest := s']> (filesToMerge st)) next
                = rest) as ->.
        { unfold cursor_rest. cbn [ptrFileReadFrom next].
          rewrite list_lookup_insert_eq by (by eapply lookup_lt_Some). done. }
        rewrite <-Hperm, pending_cons.
        unfold cursor_rest. rewrite Hs, Hrem.
        rewrite <-app_assoc. done.
      * done.
      * intros x fi Hx Hfi. rewrite Hpush in Hfi.
        apply elem_of_cons in Hfi as [->|Hfi].
        -- specialize (Hlast x Hx). cbn [value next]. lia.
        -- specialize (Hlast x Hx). specialize (Hmin fi Hfi). lia.
    + rewrite Hpush, !heap_fuel_cons. cbn [numLeftToRead next]. lia.
    + by rewrite length_insert.
  - assert (remaining s = []) as Hrem.
    { apply length_zero_iff_nil. lia. }
    eexists. split; [reflexivity|].
    cbn [fileData filesToMerge written]. split_and!.
    + constructor; cbn [fileData filesToMerge written].
      * done.
      * by rewrite Hv'.
      * by rewrite Hv'.
      * rewrite Hv', <-Hperm, pending_cons.
        unfold cursor_rest. rewrite Hs, Hrem.
        rewrite <-app_assoc. done.
      * done.
      * intros x fi Hx Hfi. rewrite Hv' in Hfi.
        specialize (Hlast x Hx). specialize (Hmin fi Hfi). lia.
    + rewrite Hv', heap_fuel_cons. lia.
    + done.
Qed.


Lemma heap_loop_spec total fuel st :
  heap_inv total st → (heap_fuel (fileData st) ≤ fuel)%nat →
  ∃ st', heap_loop fuel st = Normal st'
       ∧ fileData st' = []
       ∧ written st' ≡ₚ total
       ∧ Sorted Z.le (written st')
       ∧ length (filesToMerge st') = length (filesToMerge st).
Proof.
  revert st. induction fuel as [|fuel IH]; intros st Hinv Hfuel.
  - destruct (fileData st) as [|fi v] eqn:Hfd.
    + exists st. cbn [heap_loop]. rewrite Hfd. split_and!; try done.
      * destruct Hinv as [_ _ _ Hperm _ _]. rewrite Hfd in Hperm.
        by rewrite app_nil_r in Hperm.
      * by destruct Hinv.
    + rewrite heap_fuel_cons in Hfuel. lia.
  - cbn [heap_loop].
    destruct (fileData st) as [|fi v] eqn:Hfd.
    + exists st. split_and!; try done.
      * destruct Hinv as [_ _ _ Hperm _ _]. rewrite Hfd in Hperm.
        by rewrite app_nil_r in Hperm.
      * by destruct Hinv.
    + destruct (heap_body_inv total st Hinv) as (st1 & -> & Hinv1 & Hf1 & Hlen1).
      { by rewrite Hfd. }
      cbn [mbind outcome_bind].
      destruct (IH st1 Hinv1) as (st' & Hrun & Hrest).
      { rewrite Hfd in Hf1. lia. }
      exists st'. rewrite Hlen1 in Hrest. done.
Qed.

End batch.
(** ** Opening a batch *)

Lemma Sorted_perm_std_sort l total :
  Sorted Z.le l → l ≡ₚ total → l = std_sort total.
Proof.
  intros Hs Hp. apply (Sorted_unique Z.le); [done| |].
  - apply Sorted_merge_sort, _.
  - unfold std_sort. by rewrite merge_sort_Permutation.
Qed.

Lemma opened_good d : good (opened d) = true ∧ sopen (opened d) = true.
Proof. done. Qed.

Lemma remaining_opened d : remaining (opened d) = drop 1 d.
Proof. done. Qed.

Lemma open_run_spec `{H : StdHeap FileInteger} fs i name d :
  fs !! to_string name = Some d → d ≠ [] →
  sizeof_int * Z.of_nat (length d) ≤ int_max →
  open_run fs i name = Normal (opened d, first_cursor i d).
Proof.
  intros Hfs Hne Hlen. unfold open_run, open_in. rewrite Hfs.
  destruct d as [|x rest]; [done|].
  fold (stream_of (x :: rest)).
  destruct (read_int_good (stream_of (x :: rest)) x rest) as [-> _]; [done..|].
  change (set_pos (stream_of (x :: rest)) (spos (stream_of (x :: rest)) + 1))
    with (opened (x :: rest)).
  rewrite fileLen_good; [|done|done|done|].
  2:{ cbn. unfold sizeof_int, int_max. lia. }
  change (sdata (opened (x :: rest))) with (x :: rest).
  rewrite div_sizeof_bytes by (done || lia).
  rewrite to_size_t_small
    by (unfold sizeof_int, int_max in *; simpl length in *; lia).
  rewrite to_int_small
    by (unfold sizeof_int, int_max in *; simpl length in *; lia).
  done.
Qed.

Lemma open_runs_spec `{H : StdHeap FileInteger} fs i name runs :
  runs_at fs name runs → Forall run_ok runs →
  open_runs fs i name (length runs)
  = Normal (opened <$> runs, first_cursors i runs).
Proof.
  revert i name.
  induction runs as [|d runs IH]; intros i name Hat Hok; [done|].
  apply Forall_cons in Hok as [(Hne & _ & Hlen) Hok].
  cbn [length open_runs].
  rewrite (open_run_spec fs i name d); [|
    specialize (Hat 0%nat d eq_refl); by rewrite Z.add_0_r in Hat|done..].
  cbn [mbind outcome_bind].
  rewrite IH; [done| |done].
  intros j d' Hj.
  replace (name + 1 + Z.of_nat j) with (name + Z.of_nat (S j)) by lia.
  by apply Hat.
Qed.

Lemma first_cursors_ptr i runs :
  ptrFileReadFrom <$> first_cursors i runs = seq i (length runs).
Proof.
  revert i. induction runs as [|d runs IH]; intros i; [done|].
  cbn [first_cursors fmap list_fmap length seq]. f_equal. apply IH.
Qed.

Lemma first_cursors_ok pre runs :
  Forall run_ok runs →
  Forall (cursor_ok (pre ++ (opened <$> runs))) (first_cursors (length pre) runs)
  ∧ pending (pre ++ (opened <$> runs)) (first_cursors (length pre) runs)
    = concat runs.
Proof.
  revert pre. induction runs as [|d runs IH]; intros pre Hok.
  { split; [constructor|done]. }
  apply Forall_cons in Hok as [(Hne & Hsort & Hlen) Hok].
  specialize (IH (pre ++ [opened d]) Hok).
  rewrite length_app, Nat.add_1_r, <-app_assoc in IH.
  destruct IH as [IH1 IH2].
  cbn [first_cursors fmap list_fmap].
  assert ((pre ++ opened d :: (opened <$> runs)) !! length pre = Some (opened d))
    as Hlook by apply list_lookup_middle, eq_refl.
  assert (hd 0 d :: drop 1 d = d) as Hd by (by destruct d).
  split.
  - apply Forall_cons. split; [|done].
    exists (opened d). split_and!; [exact Hlook|done| |].
    + rewrite remaining_opened, length_drop. cbn [numLeftToRead first_cursor].
      destruct d; [done|]. simpl length. lia.
    + rewrite remaining_opened. cbn [value first_cursor]. by rewrite Hd.
  - rewrite pending_cons. cbn [concat]. unfold cursor_rest at 1.
    cbn [ptrFileReadFrom first_cursor value]. rewrite Hlook, remaining_opened.
    rewrite <-IH2. by rewrite app_comm_cons, Hd.
Qed.

Section batch_open.
Context `{H : StdHeap FileInteger} `{!StdHeapLaws H FileInteger_cmp}.

(** The state the merge loop of a batch starts in satisfies its
    invariant. *)
Lemma heap_inv_init runs :
  Forall run_ok runs →
  heap_inv (concat runs)
    {| fileData := make_heap FileInteger_cmp (first_cursors 0 runs);
       filesToMerge := opened <$> runs;
       written := [] |}.
Proof.
  intros Hok.
  destruct (first_cursors_ok [] runs Hok) as [Hcur Hpend].
  cbn [app length] in Hcur, Hpend.
  constructor; cbn [fileData filesToMerge written].
  - apply make_heap_is_heap.
  - rewrite make_heap_perm, first_cursors_ptr. apply NoDup_seq.
  - by rewrite make_heap_perm.
  - by rewrite make_heap_perm, Hpend.
  - constructor.
  - intros x fi Hx. by apply not_elem_of_nil in Hx.
Qed.

End batch_open.
(** ** Closing and removing the files of a batch *)

Lemma close_and_remove_closed files name fs :
  Forall (λ f, sopen f = false) (close_and_remove files name fs).1
  ∧ length (close_and_remove files name fs).1 = length files.
Proof.
  revert name fs. induction files as [|f files IH]; intros name fs.
  { split; [constructor|done]. }
  cbn [close_and_remove].
  specialize (IH (name + 1) (remove (to_string name) fs)).
  destruct (close_and_remove files (name + 1) (remove (to_string name) fs))
    as [closed fs'].
  cbn [fst] in *. destruct IH as [IH1 IH2]. split.
  - by constructor.
  - simpl. by rewrite IH2.
Qed.

Lemma close_and_remove_lookup_out files name fs s :
  (∀ j : nat, (j < length files)%nat → s ≠ to_string (name + Z.of_nat j)) →
  (close_and_remove files name fs).2 !! s = fs !! s.
Proof.
  revert name fs. induction files as [|f files IH]; intros name fs Hs; [done|].
  cbn [close_and_remove].
  specialize (IH (name + 1) (remove (to_string name) fs)).
  destruct (close_and_remove files (name + 1) (remove (to_string name) fs))
    as [closed fs'].
  cbn [snd] in *. rewrite IH.
  - unfold remove. apply lookup_delete_ne. intros Heq.
    apply (Hs 0%nat); [simpl; lia|]. by rewrite Z.add_0_r.
  - intros j Hj. replace (name + 1 + Z.of_nat j)
      with (name + Z.of_nat (S j)) by lia.
    apply Hs. simpl. lia.
Qed.

Lemma close_and_remove_lookup_in files name fs (j : nat) :
  (j < length files)%nat →
  (close_and_remove files name fs).2 !! to_string (name + Z.of_nat j) = None.
Proof.
  revert name fs j. induction files as [|f files IH]; intros name fs j Hj.
  { simpl in Hj. lia. }
  cbn [close_and_remove].
  pose proof (IH (name + 1) (remove (to_string name) fs)) as IH'.
  pose proof (close_and_remove_lookup_out files (name + 1)
                (remove (to_string name) fs)) as Hout.
  destruct (close_and_remove files (name + 1) (remove (to_string name) fs))
    as [closed fs'].
  cbn [snd] in *. destruct j as [|j].
  - rewrite Hout.
    + rewrite Z.add_0_r. apply lookup_delete_eq.
    + intros i _ Heq. apply to_string_inj in Heq. lia.
  - replace (name + Z.of_nat (S j)) with (name + 1 + Z.of_nat j) by lia.
    apply IH'. simpl in Hj. lia.
Qed.

(** ** One batch *)

Lemma std_sort_perm l1 l2 : l1 ≡ₚ l2 → std_sort l1 = std_sort l2.
Proof.
  intros Hp. apply Sorted_perm_std_sort.
  - apply Sorted_merge_sort, _.
  - unfold std_sort. by rewrite merge_sort_Permutation.
Qed.

Lemma numFilesToOpen_bound M st :
  numFilesToOpen M st ≤ M
  ∧ numFilesToOpen M st ≤ totalNumberOfFiles st - currentFileNumToMerge st.
Proof. unfold numFilesToOpen. case_decide; lia. Qed.

Section pass.
Context `{H : StdHeap FileInteger} `{!StdHeapLaws H FileInteger_cmp}.

Lemma merge_batch_spec M st b :
  Z.of_nat (length b) = numFilesToOpen M st →
  runs_at (p_fs st) (currentFileNumToMerge st) b →
  Forall run_ok b →
  let cur := currentFileNumToMerge st in
  let total := totalNumberOfFiles st in
  let k := numFilesToOpen M st in
  ∃ fs',
    merge_batch M st
    = Normal {| p_fs := fs'; currentFileNumToMerge := cur + k;
                totalNumberOfFiles := if decide (cur + k ≠ total) then total + 1 else total |}
    ∧ fs' !! to_string total = Some (std_sort (concat b))
    ∧ (∀ j, cur ≤ j < cur + k → fs' !! to_string j = None)
    ∧ (∀ s, s ≠ to_string total → (∀ j, cur ≤ j < cur + k → s ≠ to_string j) →
         fs' !! s = p_fs st !! s).
Proof.
  intros Hlen Hat Hok. cbv zeta.
  unfold merge_batch, batch_open.
  set (k := numFilesToOpen M st) in *.
  set (cur := currentFileNumToMerge st) in *.
  set (total := totalNumberOfFiles st) in *.
  destruct (decide (k < 0)) as [|_]; [lia|].
  replace (Z.to_nat k) with (length b) by lia.
  rewrite (open_runs_spec _ _ _ b) by done.
  cbn [mbind outcome_bind fileData].
  destruct (heap_loop_spec (concat b)
              (heap_fuel (make_heap FileInteger_cmp (first_cursors 0 b)))
              {| fileData := make_heap FileInteger_cmp (first_cursors 0 b);
                 filesToMerge := opened <$> b; written := [] |})
    as (h & -> & _ & Hperm & Hsort & Hfiles).
  { by apply heap_inv_init. }
  { done. }
  cbn [mbind outcome_bind filesToMerge] in *.
  rewrite length_fmap in Hfiles.
  replace (cur + k - k) with cur by lia.
  pose proof (close_and_remove_lookup_in (filesToMerge h) cur
                (<[to_string total := []]> (p_fs st))) as Hin.
  pose proof (close_and_remove_lookup_out (filesToMerge h) cur
                (<[to_string total := []]> (p_fs st))) as Hout.
  destruct (close_and_remove (filesToMerge h) cur
              (<[to_string total := []]> (p_fs st))) as [closed fs2].
  cbn [snd] in *.
  eexists. split; [reflexivity|]. split_and!.
  - rewrite lookup_insert_eq. f_equal. by apply Sorted_perm_std_sort.
  - intros j Hj.
    pose proof (numFilesToOpen_bound M st) as [_ Hk]. fold k cur total in Hk.
    rewrite lookup_insert_ne by (intros Heq%to_string_inj; lia).
    replace j with (cur + Z.of_nat (Z.to_nat (j - cur))) by lia.
    apply Hin. lia.
  - intros s Hs Hother.
    rewrite lookup_insert_ne by done.
    rewrite Hout.
    + by rewrite lookup_insert_ne.
    + intros j Hj. apply Hother. lia.
Qed.

End pass.
(** ** The passes *)

Lemma concat_length_le (runs : list (list Z)) d :
  d ∈ runs → (length d ≤ length (concat runs))%nat.
Proof.
  induction runs as [|r runs IH]; [by intros ?%not_elem_of_nil|].
  intros [->|Hd]%elem_of_cons; cbn [concat]; rewrite length_app; [lia|].
  specialize (IH Hd). lia.
Qed.

Lemma runs_ok_run_ok runs sub :
  runs_ok runs → sub ⊆ runs → Forall run_ok sub.
Proof.
  intros [Hall Hsize] Hsub. apply Forall_forall. intros d Hd.
  apply Hsub in Hd.
  rewrite Forall_forall in Hall. destruct (Hall d Hd) as [Hne Hs].
  split_and!; [done..|].
  pose proof (concat_length_le runs d Hd). unfold sizeof_int in *. lia.
Qed.

Lemma last_run_ge M cur total : 2 ≤ M → total ≤ last_run M cur total.
Proof.
  intros HM. unfold last_run.
  assert (0 ≤ Z.max 0 (total - cur - 2) / (M - 1)); [|lia].
  apply Z.div_pos; lia.
Qed.

Section passes.
Context `{H : StdHeap FileInteger} `{!StdHeapLaws H FileInteger_cmp}.

Lemma merge_loop_done fuel M st :
  ¬ currentFileNumToMerge st < totalNumberOfFiles st →
  merge_loop fuel M st = Normal st.
Proof. intros Hdone. destruct fuel; cbn [merge_loop]; by rewrite decide_False. Qed.

(** A batch that leaves runs pending: the merged run is appended to
    them under the next name. *)
Lemma merge_batch_more M fs cur total runs :
  1 ≤ M → M < total - cur →
  Z.of_nat (length runs) = total - cur →
  runs_at fs cur runs → runs_ok runs →
  ∃ fs' merged,
    merge_batch M {| p_fs := fs; currentFileNumToMerge := cur;
                     totalNumberOfFiles := total |}
    = Normal {| p_fs := fs'; currentFileNumToMerge := cur + M;
                totalNumberOfFiles := total + 1 |}
    ∧ runs_at fs' (cur + M) (drop (Z.to_nat M) runs ++ [merged])
    ∧ runs_ok (drop (Z.to_nat M) runs ++ [merged])
    ∧ concat (drop (Z.to_nat M) runs ++ [merged]) ≡ₚ concat runs
    ∧ (∀ j, cur ≤ j < cur + M → fs' !! to_string j = None)
    ∧ (∀ s, s ≠ to_string total → (∀ j, cur ≤ j < cur + M → s ≠ to_string j) →
         fs' !! s = fs !! s).
Proof.
  intros HM Hrem Hlen Hat Hok.
  set (st := {| p_fs := fs; currentFileNumToMerge := cur;
                totalNumberOfFiles := total |}).
  assert (numFilesToOpen M st = M) as Hk
    by (unfold numFilesToOpen; cbn; case_decide; lia).
  set (b := take (Z.to_nat M) runs).
  assert (Z.of_nat (length b) = M) as Hb by (unfold b; rewrite length_take; lia).
  assert (runs = b ++ drop (Z.to_nat M) runs) as Hsplit
    by (unfold b; by rewrite take_drop).
  destruct (merge_batch_spec M st b) as (fs' & Hbatch & Hout & Hgone & Hframe).
  { by rewrite Hk. }
  { intros j d Hj. apply Hat. unfold b in Hj.
    apply lookup_take_Some in Hj as [Hj _]. done. }
  { apply (runs_ok_run_ok runs); [done|]. unfold b. apply subseteq_take. }
  rewrite Hk in Hbatch, Hgone, Hframe.
  cbn [st p_fs currentFileNumToMerge totalNumberOfFiles] in Hbatch, Hout, Hgone, Hframe.
  rewrite decide_True in Hbatch by lia.
  set (merged := std_sort (concat b)) in *.
  assert (concat (drop (Z.to_nat M) runs ++ [merged]) ≡ₚ concat runs) as Hperm.
  { rewrite Hsplit at 2. rewrite !concat_app.
    cbn [concat]. rewrite app_nil_r. unfold merged, std_sort.
    rewrite merge_sort_Permutation. apply Permutation_app_comm. }
  exists fs', merged. split_and!; [done| | |done..].
  - intros j d Hj.
    apply lookup_app_Some in Hj as [Hj|[Hj1 Hj2]].
    + rewrite lookup_drop in Hj.
      pose proof (lookup_lt_Some _ _ _ Hj) as Hjlt.
      apply Hat in Hj.
      rewrite Hframe.
      * rewrite <-Hj. do 2 f_equal. lia.
      * intros Heq%to_string_inj. lia.
      * intros i Hi Heq%to_string_inj. lia.
    + rewrite length_drop in Hj1, Hj2.
      apply list_lookup_singleton_Some in Hj2 as [Hj2 <-].
      rewrite <-Hout. do 2 f_equal. lia.
  - destruct Hok as [Hall Hsize]. split; [|by rewrite Hperm].
    apply Forall_app. split; [by apply Forall_drop|].
    apply Forall_singleton. split; [|apply Sorted_merge_sort, _].
    intros Hnil. apply (f_equal length) in Hnil.
    unfold merged, std_sort in Hnil.
    rewrite merge_sort_Permutation in Hnil.
    destruct b as [|d b'] eqn:Hbeq; [simpl in Hb; lia|].
    assert (d ≠ []) as Hd.
    { apply (proj1 (Forall_forall _ _) Hall). rewrite Hsplit. set_solver. }
    destruct d; [done|]. simpl in Hnil. lia.
Qed.

(** The batch that merges all the pending runs. *)
Lemma merge_batch_last M fs cur total runs :
  cur < total → total - cur ≤ M →
  Z.of_nat (length runs) = total - cur →
  runs_at fs cur runs → runs_ok runs →
  ∃ fs',
    merge_batch M {| p_fs := fs; currentFileNumToMerge := cur;
                     totalNumberOfFiles := total |}
    = Normal {| p_fs := fs'; currentFileNumToMerge := total;
                totalNumberOfFiles := total |}
    ∧ fs' !! to_string total = Some (std_sort (concat runs))
    ∧ (∀ j, cur ≤ j < total → fs' !! to_string j = None)
    ∧ (∀ s, s ≠ to_string total → (∀ j, cur ≤ j < total → s ≠ to_string j) →
         fs' !! s = fs !! s).
Proof.
  intros Hlt Hrem Hlen Hat Hok.
  set (st := {| p_fs := fs; currentFileNumToMerge := cur;
                totalNumberOfFiles := total |}).
  assert (numFilesToOpen M st = total - cur) as Hk
    by (unfold numFilesToOpen; cbn; case_decide; lia).
  destruct (merge_batch_spec M st runs) as (fs' & Hbatch & Hout & Hgone & Hframe).
  { by rewrite Hk. }
  { done. }
  { by apply (runs_ok_run_ok runs). }
  rewrite Hk in Hbatch, Hgone, Hframe.
  cbn [st p_fs currentFileNumToMerge totalNumberOfFiles] in Hbatch, Hout, Hgone, Hframe.
  rewrite decide_False in Hbatch by lia.
  replace (cur + (total - cur)) with total in * by lia.
  by exists fs'.
Qed.

Lemma merge_loop_spec fuel M st runs :
  2 ≤ M →
  currentFileNumToMerge st < totalNumberOfFiles st →
  Z.of_nat (length runs) = totalNumberOfFiles st - currentFileNumToMerge st →
  runs_at (p_fs st) (currentFileNumToMerge st) runs →
  runs_ok runs →
  (length runs ≤ fuel)%nat →
  ∃ st',
    merge_loop fuel M st = Normal st'
    ∧ currentFileNumToMerge st' = totalNumberOfFiles st'
    ∧ totalNumberOfFiles st' = last_run M (currentFileNumToMerge st) (totalNumberOfFiles st)
    ∧ p_fs st' !! to_string (totalNumberOfFiles st') = Some (std_sort (concat runs))
    ∧ (∀ j, currentFileNumToMerge st ≤ j < totalNumberOfFiles st' →
         p_fs st' !! to_string j = None)
    ∧ (∀ s, (∀ j, currentFileNumToMerge st ≤ j ≤ totalNumberOfFiles st' →
              s ≠ to_string j) →
         p_fs st' !! s = p_fs st !! s).
Proof.
  intros HM. revert st runs.
  induction fuel as [|fuel IH]; intros st runs Hlt Hlen Hat Hok Hfuel; [lia|].
  cbn [merge_loop]. rewrite decide_True by done.
  destruct st as [fs cur total].
  cbn [p_fs currentFileNumToMerge totalNumberOfFiles] in *.
  destruct (decide (M < total - cur)) as [Hmore|Hlast].
  - (* more runs are pending: the merged run joins them *)
    destruct (merge_batch_more M fs cur total runs)
      as (fs' & merged & -> & Hat' & Hok' & Hperm & Hgone & Hframe);
      [lia|done..|].
    cbn [mbind outcome_bind].
    set (runs' := drop (Z.to_nat M) runs ++ [merged]) in *.
    assert (length runs' = (length runs - Z.to_nat M + 1)%nat) as Hlen'
      by (unfold runs'; rewrite length_app, length_drop; done).
    match goal with
    | |- context [merge_loop fuel M ?s] =>
        destruct (IH s runs') as (st' & Hrun & Hcur' & Htot' & Hres & Hgone' & Hframe')
    end; cbn [p_fs currentFileNumToMerge totalNumberOfFiles] in *;
      [lia|lia|done|done|lia|].
    assert (last_run M (cur + M) (total + 1) = last_run M cur total) as Hlast'.
    { unfold last_run.
      rewrite !Z.max_r by lia.
      replace (total - cur - 2) with (total + 1 - (cur + M) - 2 + 1 * (M - 1)) by lia.
      rewrite Z.div_add by lia. lia. }
    pose proof (last_run_ge M (cur + M) (total + 1) HM).
    exists st'. split_and!; [done|done|congruence| | |].
    + rewrite Hres. f_equal. by apply std_sort_perm.
    + intros j Hj. destruct (decide (j < cur + M)) as [Hlow|Hhigh].
      * rewrite Hframe'; [apply Hgone; lia|].
        intros i Hi Heq%to_string_inj. lia.
      * apply Hgone'. lia.
    + intros s Hs. rewrite Hframe'.
      * apply Hframe.
        -- apply Hs. lia.
        -- intros j Hj. apply Hs. lia.
      * intros j Hj. apply Hs. lia.
  - (* the last batch *)
    destruct (merge_batch_last M fs cur total runs)
      as (fs' & -> & Hout & Hgone & Hframe); [done|lia|done..|].
    cbn [mbind outcome_bind].
    rewrite merge_loop_done by (cbn; lia).
    eexists. split; [reflexivity|]. cbn [p_fs currentFileNumToMerge totalNumberOfFiles].
    assert (last_run M cur total = total) as Hlast'.
    { unfold last_run. rewrite Z.div_small; lia. }
    split_and!; [lia|lia|done|done|].
    intros s Hs. apply Hframe.
    + apply Hs. lia.
    + intros j Hj. apply Hs. lia.
Qed.

End passes.
(** ** The whole sort *)

Lemma remove_runs_lookup_out n name fs s :
  (∀ j : nat, (j < n)%nat → s ≠ to_string (name + Z.of_nat j)) →
  remove_runs name n fs !! s = fs !! s.
Proof.
  revert name fs. induction n as [|n IH]; intros name fs Hs; [done|].
  cbn [remove_runs]. rewrite IH.
  - unfold remove. apply lookup_delete_ne. intros Heq.
    apply (Hs 0%nat); [lia|]. by rewrite Z.add_0_r.
  - intros j Hj. replace (name + 1 + Z.of_nat j)
      with (name + Z.of_nat (S j)) by lia.
    apply Hs. lia.
Qed.

Lemma remove_runs_lookup_in n name fs (j : nat) :
  (j < n)%nat → remove_runs name n fs !! to_string (name + Z.of_nat j) = None.
Proof.
  revert name fs j. induction n as [|n IH]; intros name fs j Hj; [lia|].
  cbn [remove_runs]. destruct j as [|j].
  - rewrite remove_runs_lookup_out.
    + rewrite Z.add_0_r. apply lookup_delete_eq.
    + intros i _ Heq%to_string_inj. lia.
  - replace (name + Z.of_nat (S j)) with (name + 1 + Z.of_nat j) by lia.
    apply IH. lia.
Qed.

(** A file system is determined by the output file, the absence of the
    run files and the files the sort does not touch. *)
Lemma sorted_fs_eq (fs fs' : filesystem) dest out last :
  0 ≤ last →
  fs' !! dest = Some out →
  (∀ j, 0 ≤ j ≤ last → to_string j ≠ dest → fs' !! to_string j = None) →
  (∀ s, s ≠ dest → (∀ j, 0 ≤ j ≤ last → s ≠ to_string j) → fs' !! s = fs !! s) →
  fs' = <[dest := out]> (remove_runs 0 (Z.to_nat (last + 1)) fs).
Proof.
  intros Hlast Hdest Hgone Hframe. apply map_eq. intros s.
  destruct (decide (s = dest)) as [->|Hne].
  { by rewrite lookup_insert_eq. }
  rewrite lookup_insert_ne by done.
  destruct (decide (s ∈ (λ j : nat, to_string (0 + Z.of_nat j))
                          <$> seq 0 (Z.to_nat (last + 1))))
    as [(j & -> & Hj%elem_of_seq)%list_elem_of_fmap|Hnot].
  - rewrite remove_runs_lookup_in by lia. apply Hgone; [lia|done].
  - assert (∀ j : nat, (j < Z.to_nat (last + 1))%nat
                       → s ≠ to_string (0 + Z.of_nat j)) as Hnot'.
    { intros j Hj ->. apply Hnot. apply list_elem_of_fmap.
      exists j. split; [done|]. apply elem_of_seq. lia. }
    rewrite remove_runs_lookup_out by done.
    apply Hframe; [done|]. intros j Hj ->.
    apply (Hnot' (Z.to_nat j)); [lia|]. f_equal. lia.
Qed.

Section sort.
Context `{H : StdHeap FileInteger} `{!StdHeapLaws H FileInteger_cmp}.

Lemma mergeTempFiles_spec fuel fs runs M dest :
  2 ≤ M → runs ≠ [] → runs_at fs 0 runs → runs_ok runs →
  (length runs ≤ fuel)%nat →
  let last := last_run M 0 (Z.of_nat (length runs)) in
  mergeTempFiles fuel fs (Z.of_nat (length runs)) M dest
  = Normal (<[dest := std_sort (concat runs)]>
              (remove_runs 0 (Z.to_nat (last + 1)) fs)).
Proof.
  intros HM Hne Hat Hok Hfuel last. unfold mergeTempFiles.
  assert (0 < length runs)%nat by (destruct runs; [done|simpl; lia]).
  destruct (merge_loop_spec fuel M (mergeTempFiles_init fs (Z.of_nat (length runs))) runs)
    as (st' & -> & Hcur & Htot & Hres & Hgone & Hframe); [done|cbn; lia..|done|done|done|].
  cbn [mbind outcome_bind]. cbn [mergeTempFiles_init currentFileNumToMerge
    totalNumberOfFiles p_fs] in *.
  fold last in Htot.
  pose proof (last_run_ge M 0 (Z.of_nat (length runs)) HM) as Hge. fold last in Hge.
  unfold rename. rewrite Hcur, Hres. f_equal.
  apply sorted_fs_eq.
  - lia.
  - apply lookup_insert_eq.
  - intros j Hj Hjd. rewrite lookup_insert_ne by done.
    destruct (decide (j = totalNumberOfFiles st')) as [->|Hjne].
    + apply lookup_delete_eq.
    + rewrite lookup_delete_ne by (intros Heq%to_string_inj; lia).
      apply Hgone. lia.
  - intros s Hs Hother. rewrite lookup_insert_ne by done.
    rewrite lookup_delete_ne by (intros <-; apply (Hother (totalNumberOfFiles st')); [lia|done]).
    apply Hframe. intros j Hj. apply Hother. lia.
Qed.

End sort.
Lemma sorted_chunks_perm m l : (0 < m)%nat → concat (sorted_chunks m l) ≡ₚ l.
Proof.
  intros Hm. unfold sorted_chunks.
  rewrite <-(chunks_concat m l (length l)) at 3 by done.
  induction (chunks (length l) m l) as [|c cs IH]; [done|].
  cbn [fmap list_fmap concat]. rewrite IH.
  unfold std_sort. by rewrite merge_sort_Permutation.
Qed.

Lemma std_sort_length l : length (std_sort l) = length l.
Proof. unfold std_sort. by rewrite merge_sort_Permutation. Qed.

Lemma sorted_chunks_Forall m l :
  (0 < m)%nat →
  Forall (λ d, d ≠ [] ∧ Sorted Z.le d ∧ (length d ≤ m)%nat) (sorted_chunks m l).
Proof.
  intros Hm. unfold sorted_chunks. apply Forall_fmap.
  eapply Forall_impl; [by apply chunks_Forall|].
  intros c [Hne Hlen]. cbn. split_and!.
  - intros Hnil%(f_equal length). rewrite std_sort_length in Hnil.
    by destruct c.
  - apply Sorted_merge_sort, _.
  - by rewrite std_sort_length.
Qed.

Lemma sorted_chunks_length m l :
  (0 < m)%nat →
  Z.of_nat (length (sorted_chunks m l))
  = (Z.of_nat (length l) + Z.of_nat m - 1) / Z.of_nat m.
Proof.
  intros Hm. unfold sorted_chunks. rewrite length_fmap.
  by apply chunks_length.
Qed.

Lemma sorted_chunks_lookup m l i r :
  sorted_chunks m l !! i = Some r → r = std_sort (take m (drop (i * m) l)).
Proof.
  unfold sorted_chunks. rewrite list_lookup_fmap.
  destruct (chunks (length l) m l !! i) as [c|] eqn:Hc; [|done].
  intros [= <-]. f_equal. by eapply chunks_lookup.
Qed.

Lemma sorted_chunks_nonempty m l : l ≠ [] → sorted_chunks m l ≠ [].
Proof. by destruct l. Qed.

Lemma sorted_chunks_runs_ok m l :
  (0 < m)%nat → sizeof_int * Z.of_nat (length l) ≤ int_max →
  runs_ok (sorted_chunks m l).
Proof.
  intros Hm Hsize. split.
  - eapply Forall_impl; [by apply sorted_chunks_Forall|].
    intros d (? & ? & ?). by split.
  - by rewrite sorted_chunks_perm.
Qed.

Lemma write_runs_runs_at fs runs : runs_at (write_runs 0 runs fs) 0 runs.
Proof.
  intros j d Hj. rewrite write_runs_lookup; [done|].
  by eapply lookup_lt_Some.
Qed.

Lemma remove_runs_write_runs n runs fs :
  (length runs ≤ n)%nat →
  remove_runs 0 n (write_runs 0 runs fs) = remove_runs 0 n fs.
Proof.
  intros Hn. apply map_eq. intros s.
  destruct (decide (s ∈ (λ j : nat, to_string (0 + Z.of_nat j)) <$> seq 0 n))
    as [(j & -> & Hj%elem_of_seq)%list_elem_of_fmap|Hnot].
  - by rewrite !remove_runs_lookup_in by lia.
  - assert (∀ j : nat, (j < n)%nat → s ≠ to_string (0 + Z.of_nat j)) as Hnot'.
    { intros j Hj ->. apply Hnot. apply list_elem_of_fmap.
      exists j. split; [done|]. apply elem_of_seq. lia. }
    rewrite !remove_runs_lookup_out by done.
    apply write_runs_lookup_other. intros i Hi. apply Hnot'. lia.
Qed.

Section whole.
Context `{H : StdHeap FileInteger} `{!StdHeapLaws H FileInteger_cmp}.

(** The sort of a freshly opened file, for every input and every bound
    above one: when [makeTempFiles] counts at least one [int], the
    output file holds the counted [int]s in ascending order and no run
    file is left; otherwise only the [rename] of line 234 happens. *)
Lemma external_sort_spec fuel fs d M dest :
  2 ≤ M → (length d ≤ fuel)%nat →
  let n := int_count (length d) in
  external_sort fuel fs (stream_of d) M dest
  = Normal (if decide (1 ≤ n)
            then sorted_fs fs M (take (Z.to_nat n) d) dest
            else rename (to_string 0) dest fs).
Proof.
  intros HM Hfuel n. unfold external_sort.
  pose proof (int_count_le (length d)) as [Hle Hsize]. fold n in Hle, Hsize.
  rewrite makeTempFiles_spec by (fold n; lia). fold n.
  cbn [mbind outcome_bind].
  set (input := take (Z.to_nat n) d).
  set (runs := sorted_chunks (Z.to_nat M) input).
  destruct (decide (1 ≤ n)) as [Hpos|Hneg].
  - assert (length input = Z.to_nat n) as Hlen
      by (unfold input; rewrite length_take; lia).
    assert (input ≠ []) as Hne by (intros Hnil; rewrite Hnil in Hlen; simpl in Hlen; lia).
    pose proof (sorted_chunks_length (Z.to_nat M) input ltac:(lia)) as Hruns.
    fold runs in Hruns.
    assert (length runs ≤ length input)%nat as Hrl.
    { apply Nat2Z.inj_le. rewrite Hruns.
      apply Z.div_le_upper_bound; [lia|]. nia. }
    rewrite mergeTempFiles_spec.
    + unfold sorted_fs. fold runs. f_equal.
      rewrite remove_runs_write_runs.
      * f_equal. apply std_sort_perm, sorted_chunks_perm. lia.
      * pose proof (last_run_ge M 0 (Z.of_nat (length runs)) HM). lia.
    + done.
    + by apply sorted_chunks_nonempty.
    + apply write_runs_runs_at.
    + apply sorted_chunks_runs_ok; [lia|]. unfold sizeof_int in *. lia.
    + lia.
  - assert (input = []) as Hnil
      by (unfold input; replace (Z.to_nat n) with 0%nat by lia; done).
    unfold runs. rewrite Hnil. cbn [sorted_chunks length chunks fmap list_fmap write_runs].
    unfold mergeTempFiles. rewrite merge_loop_done by (cbn; lia).
    done.
Qed.

(** For an input whose length in bytes is an [int], all of it is sorted. *)
Lemma external_sort_small fuel fs d M dest :
  2 ≤ M → (length d ≤ fuel)%nat → d ≠ [] →
  sizeof_int * Z.of_nat (length d) ≤ int_max →
  external_sort fuel fs (stream_of d) M dest = Normal (sorted_fs fs M d dest).
Proof.
  intros HM Hfuel Hne Hsize.
  rewrite external_sort_spec by done. cbv zeta.
  rewrite int_count_small by done.
  rewrite decide_True by (destruct d; [done|simpl; lia]).
  by rewrite Nat2Z.id, firstn_all.
Qed.

End whole.
(** ** Termination and bounds without assumptions on the files *)


Lemma open_runs_length `{H : StdHeap FileInteger} fs i name n files fis :
  open_runs fs i name n = Normal (files, fis) →
  length files = n ∧ length fis = n.
Proof.
  revert i name files fis.
  induction n as [|n IH]; intros i name files fis.
  { by intros [= <- <-]. }
  cbn [open_runs].
  destruct (open_run fs i name) as [[f fi]| |]; [|done..].
  cbn [mbind outcome_bind].
  destruct (open_runs fs (S i) (name + 1) n) as [[fs' fis']| |] eqn:Hrec; [|done..].
  cbn [mbind outcome_bind]. intros [= <- <-].
  destruct (IH _ _ _ _ Hrec) as [Hf Hfi]. simpl. by rewrite Hf, Hfi.
Qed.

Section weak.
Context `{H : StdHeap FileInteger} `{!StdHeapLaws H FileInteger_cmp}.

(** Whatever the streams hold, an iteration of the merge loop keeps the
    frontier a heap, does not enlarge it, and uses one unit of fuel. *)
Lemma heap_body_step st :
  is_heap FileInteger_cmp (fileData st) → fileData st ≠ [] →
  heap_body st ≠ OutOfFuel
  ∧ ∀ st', heap_body st = Normal st' →
      is_heap FileInteger_cmp (fileData st')
      ∧ S (heap_fuel (fileData st')) = heap_fuel (fileData st)
      ∧ (length (fileData st') ≤ length (fileData st))%nat
      ∧ length (filesToMerge st') = length (filesToMerge st).
Proof.
  intros Hheap Hne. unfold heap_body.
  destruct (fileData st) as [|smallest v] eqn:Hfd; [done|].
  destruct (pop_heap_spec smallest v Hheap) as (v' & -> & Hv' & Hheap').
  rewrite removelast_last.
  destruct (decide (numLeftToRead smallest > 0)) as [Hpos|Hzero].
  - destruct (filesToMerge st !! ptrFileReadFrom smallest) as [file|]; [|done].
    destruct (read_ints 1 file) as [[|nv buf] file']; [done|].
    split; [done|]. intros st' [= <-]. cbn [fileData filesToMerge].
    set (next := {| ptrFileReadFrom := ptrFileReadFrom smallest;
                    numLeftToRead := numLeftToRead smallest - 1;
                    value := nv |}).
    assert (push_heap FileInteger_cmp (v' ++ [next]) ≡ₚ next :: v) as Hpush.
    { rewrite push_heap_perm by done. rewrite Hv'.
      symmetry. apply Permutation_cons_append. }
    split_and!.
    + by apply push_heap_is_heap.
    + rewrite Hpush, !heap_fuel_cons. cbn [numLeftToRead next]. lia.
    + rewrite Hpush. simpl. lia.
    + by rewrite length_insert.
  - split; [done|]. intros st' [= <-]. cbn [fileData filesToMerge].
    split_and!; [done| | |done].
    + rewrite Hv', heap_fuel_cons. lia.
    + rewrite Hv'. simpl. lia.
Qed.

Lemma heap_loop_total fuel st :
  is_heap FileInteger_cmp (fileData st) →
  (heap_fuel (fileData st) ≤ fuel)%nat →
  heap_loop fuel st ≠ OutOfFuel
  ∧ ∀ st', heap_loop fuel st = Normal st' →
      length (filesToMerge st') = length (filesToMerge st).
Proof.
  revert st. induction fuel as [|fuel IH]; intros st Hheap Hfuel.
  - destruct (fileData st) as [|fi v] eqn:Hfd.
    + cbn [heap_loop]. rewrite Hfd. split; [done|]. by intros st' [= <-].
    + rewrite heap_fuel_cons in Hfuel. lia.
  - cbn [heap_loop]. destruct (fileData st) as [|fi v] eqn:Hfd.
    { split; [done|]. by intros st' [= <-]. }
    destruct (heap_body_step st) as [Hno Hstep]; [by rewrite Hfd..|].
    destruct (heap_body st) as [st1| |]; [|done..].
    cbn [mbind outcome_bind].
    destruct (Hstep st1 eq_refl) as (Hheap1 & Hf1 & _ & Hlen1).
    rewrite Hfd in Hf1.
    destruct (IH st1 Hheap1) as [Hno' Hlen']; [lia|].
    split; [done|]. intros st' Hst'. rewrite <-Hlen1. by apply Hlen'.
Qed.


Lemma batch_open_bound M st h0 :
  batch_open M st = Normal h0 →
  0 ≤ numFilesToOpen M st
  ∧ is_heap FileInteger_cmp (fileData h0)
  ∧ Z.of_nat (length (fileData h0)) = numFilesToOpen M st
  ∧ Z.of_nat (length (filesToMerge h0)) = numFilesToOpen M st
  ∧ written h0 = [].
Proof.
  unfold batch_open. case_decide as Hk; [done|].
  destruct (open_runs _ _ _ _) as [[files fis]| |] eqn:Hopen; [|done..].
  cbn [mbind outcome_bind]. intros [= <-]. cbn [fileData filesToMerge written].
  apply open_runs_length in Hopen as [Hfiles Hfis].
  split_and!; [lia| | | |done].
  - apply make_heap_is_heap.
  - rewrite make_heap_perm. lia.
  - lia.
Qed.

(** A batch that completes advances the counters as lines 162 and
    229-230 say and leaves none of its input files. *)
Lemma merge_batch_step M st :
  merge_batch M st ≠ OutOfFuel
  ∧ ∀ st', merge_batch M st = Normal st' →
      let k := numFilesToOpen M st in
      0 ≤ k
      ∧ currentFileNumToMerge st' = currentFileNumToMerge st + k
      ∧ totalNumberOfFiles st'
        = (if decide (currentFileNumToMerge st + k ≠ totalNumberOfFiles st)
           then totalNumberOfFiles st + 1 else totalNumberOfFiles st)
      ∧ ∀ j, currentFileNumToMerge st ≤ j < currentFileNumToMerge st + k →
             p_fs st' !! to_string j = None.
Proof.
  unfold merge_batch.
  destruct (batch_open M st) as [h0| |] eqn:Hopen.
  2:{ done. }
  2:{ exfalso. unfold batch_open in Hopen. case_decide; [done|].
      destruct (open_runs _ _ _ _) as [[files fis]| |] eqn:Hruns; [done..|].
      clear Hopen. revert Hruns.
      generalize 0%nat (currentFileNumToMerge st).
      induction (Z.to_nat (numFilesToOpen M st)) as [|n IH]; intros i name; [done|].
      cbn [open_runs]. unfold open_run.
      destruct (read_ints 1 _) as [buf f1]. destruct (fileLen f1) as [len f2].
      destruct buf; [done|]. cbn [mbind outcome_bind].
      destruct (open_runs _ _ _ n) as [[files fis]| |] eqn:Hrec; [done..|].
      by apply IH in Hrec. }
  apply batch_open_bound in Hopen as (Hk & Hheap & Hfd & Hfiles & _).
  cbn [mbind outcome_bind].
  destruct (heap_loop_total (heap_fuel (fileData h0)) h0 Hheap) as [Hno Hlen]; [done|].
  destruct (heap_loop _ h0) as [h| |]; [|done..].
  cbn [mbind outcome_bind]. specialize (Hlen h eq_refl).
  pose proof (close_and_remove_lookup_in (filesToMerge h)
     (currentFileNumToMerge st + numFilesToOpen M st - numFilesToOpen M st)
     (<[to_string (totalNumberOfFiles st) := []]> (p_fs st))) as Hin.
  destruct (close_and_remove _ _ _) as [closed fs2]. cbn [snd] in Hin.
  split; [done|]. intros st' [= <-].
  cbn [p_fs currentFileNumToMerge totalNumberOfFiles].
  split_and!; [done..|].
  intros j Hj.
  pose proof (numFilesToOpen_bound M st) as [_ Hrem].
  rewrite lookup_insert_ne by (intros Heq%to_string_inj; lia).
  replace j with (currentFileNumToMerge st + numFilesToOpen M st
                  - numFilesToOpen M st + Z.of_nat (Z.to_nat (j - currentFileNumToMerge st)))
    by lia.
  apply Hin. lia.
Qed.

(** The pass loop needs at most as many iterations as runs are pending. *)
Lemma merge_loop_total fuel M st :
  2 ≤ M →
  totalNumberOfFiles st - currentFileNumToMerge st ≤ Z.of_nat fuel →
  merge_loop fuel M st ≠ OutOfFuel.
Proof.
  intros HM. revert st. induction fuel as [|fuel IH]; intros st Hfuel.
  { cbn [merge_loop]. by rewrite decide_False by lia. }
  cbn [merge_loop]. case_decide as Hlt; [|done].
  destruct (merge_batch_step M st) as [Hno Hstep].
  destruct (merge_batch M st) as [st'| |]; [|done..].
  cbn [mbind outcome_bind].
  destruct (Hstep st' eq_refl) as (Hk & Hcur & Htot & _).
  apply IH. rewrite Hcur, Htot.
  unfold numFilesToOpen in *. repeat case_decide; lia.
Qed.

(** When the loop ends the counter of lines 229-230 has reached
    [last_run], at most twice the number of runs it started with. *)
Lemma merge_loop_counters fuel M st st' :
  2 ≤ M →
  currentFileNumToMerge st < totalNumberOfFiles st →
  merge_loop fuel M st = Normal st' →
  currentFileNumToMerge st' = totalNumberOfFiles st'
  ∧ totalNumberOfFiles st'
    = last_run M (currentFileNumToMerge st) (totalNumberOfFiles st).
Proof.
  intros HM. revert st. induction fuel as [|fuel IH]; intros st Hlt.
  { cbn [merge_loop]. by rewrite decide_True by lia. }
  cbn [merge_loop]. rewrite decide_True by done.
  destruct (merge_batch_step M st) as [_ Hstep].
  destruct (merge_batch M st) as [st1| |]; [|done..].
  cbn [mbind outcome_bind].
  destruct (Hstep st1 eq_refl) as (Hk & Hcur & Htot & _).
  unfold numFilesToOpen in *.
  destruct (decide (totalNumberOfFiles st - currentFileNumToMerge st < M)) as [Hsmall|Hbig].
  - rewrite decide_False in Htot by lia.
    rewrite merge_loop_done by lia. intros [= <-]. split; [lia|].
    rewrite Htot. unfold last_run. rewrite Z.div_small; lia.
  - destruct (decide (currentFileNumToMerge st + M ≠ totalNumberOfFiles st)) as [Hmore|Hlast].
    + intros Hrun. apply IH in Hrun as [Hc Ht]; [|lia].
      split; [done|]. rewrite Ht, Hcur, Htot. unfold last_run.
      rewrite !Z.max_r by lia.
      replace (totalNumberOfFiles st - currentFileNumToMerge st - 2)
        with (totalNumberOfFiles st + 1 - (currentFileNumToMerge st + M) - 2
              + 1 * (M - 1)) by lia.
      rewrite Z.div_add by lia. lia.
    + rewrite merge_loop_done by lia. intros [= <-]. split; [lia|].
      rewrite Htot. unfold last_run. rewrite Z.div_small; lia.
Qed.

Lemma last_run_le M cur total :
  2 ≤ M → cur < total → last_run M cur total ≤ 2 * total - cur.
Proof.
  intros HM Hlt. unfold last_run.
  assert (Z.max 0 (total - cur - 2) / (M - 1) ≤ Z.max 0 (total - cur - 2)).
  { apply Z.div_le_upper_bound; [lia|]. nia. }
  lia.
Qed.

End weak.
(** ** A single batch, and fuel *)



Section fuel.
Context `{H : StdHeap FileInteger}.

Lemma merge_loop_fuel fuel fuel' M st r :
  merge_loop fuel M st = Normal r → (fuel ≤ fuel')%nat →
  merge_loop fuel' M st = Normal r.
Proof.
  revert fuel' st. induction fuel as [|fuel IH]; intros fuel' st.
  - cbn [merge_loop]. case_decide; [done|].
    intros [= <-] _. by apply merge_loop_done.
  - cbn [merge_loop]. case_decide as Hlt.
    + destruct fuel' as [|fuel']; [lia|]. intros Hrun Hle.
      cbn [merge_loop]. rewrite decide_True by done.
      destruct (merge_batch M st) as [st1| |]; [|done..].
      cbn [mbind outcome_bind] in *. apply IH; [done|lia].
    + intros [= <-] _. by apply merge_loop_done.
Qed.


End fuel.

Section single.
Context `{H : StdHeap FileInteger} `{!StdHeapLaws H FileInteger_cmp}.

(** One run: the loop cannot be left without a batch, the batch opens
    that run alone, and its copy, run 1, is what is renamed. *)
Lemma mergeTempFiles_single fuel fs d M dest :
  1 ≤ M → fs !! to_string 0 = Some d → run_ok d →
  merge_loop 0 M (mergeTempFiles_init fs 1) = OutOfFuel
  ∧ numFilesToOpen M (mergeTempFiles_init fs 1) = 1
  ∧ (∃ fs', merge_loop (S fuel) M (mergeTempFiles_init fs 1)
            = Normal {| p_fs := fs'; currentFileNumToMerge := 1;
                        totalNumberOfFiles := 1 |}
            ∧ fs' !! to_string 1 = Some d ∧ fs' !! to_string 0 = None)
  ∧ mergeTempFiles (S fuel) fs 1 M dest
    = Normal (<[dest := d]> (remove_runs 0 2 fs)).
Proof.
  intros HM Hfs Hok.
  assert (numFilesToOpen M (mergeTempFiles_init fs 1) = 1) as Hk.
  { unfold numFilesToOpen. cbn. case_decide; lia. }
  destruct (merge_batch_spec M (mergeTempFiles_init fs 1) [d])
    as (fs' & Hbatch & Hout & Hgone & Hframe).
  { by rewrite Hk. }
  { intros [|j] d'; [|done]. intros [= <-]. done. }
  { by apply Forall_singleton. }
  rewrite Hk in Hbatch, Hgone, Hframe.
  unfold mergeTempFiles_init in *.
  cbn [p_fs currentFileNumToMerge totalNumberOfFiles concat] in *.
  rewrite app_nil_r in Hout. rewrite decide_False in Hbatch by lia.
  assert (std_sort d = d) as Hd.
  { symmetry. apply Sorted_perm_std_sort; [apply Hok|done]. }
  rewrite Hd in Hout.
  assert (merge_loop (S fuel) M {| p_fs := fs; currentFileNumToMerge := 0;
                                   totalNumberOfFiles := 1 |}
          = Normal {| p_fs := fs'; currentFileNumToMerge := 1;
                      totalNumberOfFiles := 1 |}) as Hloop.
  { cbn [merge_loop].
    rewrite decide_True by (cbn; lia).
    rewrite Hbatch. cbn [mbind outcome_bind].
    apply merge_loop_done. cbn. lia. }
  split_and!.
  - cbn [merge_loop]. by rewrite decide_True by (cbn; lia).
  - done.
  - exists fs'. split_and!; [done|done|]. apply Hgone. lia.
  - unfold mergeTempFiles, mergeTempFiles_init. rewrite Hloop. cbn [mbind outcome_bind p_fs currentFileNumToMerge].
    unfold rename. rewrite Hout. f_equal.
    apply (sorted_fs_eq fs _ dest d 1); [lia| | |].
    + apply lookup_insert_eq.
    + intros j Hj Hjd. rewrite lookup_insert_ne by done.
      destruct (decide (j = 1)) as [->|Hj1]; [apply lookup_delete_eq|].
      rewrite lookup_delete_ne by (intros Heq%to_string_inj; lia).
      apply Hgone. lia.
    + intros s Hs Hother. rewrite lookup_insert_ne by done.
      rewrite lookup_delete_ne by (intros Heq; by apply (Hother 1)).
      apply Hframe; [by apply Hother|].
      intros j Hj. apply Hother. lia.
Qed.

End single.
(** * Results *)

(** ** C9: fileLen *)

(** C9 (counterexample).  A read of three [int]s from a file of two
    leaves the stream open, at the end of its 8 bytes, with [eofbit] and
    [failbit] set.  On it every [tellg] answers -1: [fileLen] returns 0,
    not 8, and its [clear()] and final [seekg] leave the stream with
    [eofbit] reset. *)
Lemma fileLen_failed_stream :
  let s := (read_ints 3 (stream_of [1; 2])).2 in
  sopen s = true
  ∧ sizeof_int * Z.of_nat (length (sdata s)) = 8
  ∧ (fileLen s).1 = 0
  ∧ seof s = true
  ∧ seof (fileLen s).2 = false
  ∧ (fileLen s).2 ≠ s.
Proof. cbv zeta. split_and!; try reflexivity. by vm_compute. Qed.

(** C9 (amended).  For every open stream with no error flag set whose
    length and position in bytes are at most [INT_MAX], [fileLen] returns
    the length of the file in bytes and leaves the stream as it was:
    same position, same flags, same content. *)
Theorem fileLen_pure_query s :
  sopen s = true → good s = true →
  sizeof_int * Z.of_nat (length (sdata s)) ≤ int_max →
  sizeof_int * Z.of_nat (spos s) ≤ int_max →
  (fileLen s).1 = sizeof_int * Z.of_nat (length (sdata s))
  ∧ (fileLen s).2 = s
  ∧ (tellg (fileLen s).2).1 = (tellg s).1.
Proof.
  intros Ho Hg Hlen Hpos. by rewrite fileLen_good.
Qed.

Lemma fileLen_pure_query_witness :
  let s := opened [3; 1; 2] in
  (sopen s = true ∧ good s = true
   ∧ sizeof_int * Z.of_nat (length (sdata s)) ≤ int_max
   ∧ sizeof_int * Z.of_nat (spos s) ≤ int_max)
  ∧ (fileLen s).1 = sizeof_int * Z.of_nat (length (sdata s))
  ∧ (fileLen s).2 = s
  ∧ (tellg (fileLen s).2).1 = (tellg s).1.
Proof.
  cbv zeta.
  assert (sizeof_int * Z.of_nat (length (sdata (opened [3; 1; 2]))) ≤ int_max)
    as Hlen by (vm_compute; discriminate).
  assert (sizeof_int * Z.of_nat (spos (opened [3; 1; 2])) ≤ int_max)
    as Hpos by (vm_compute; discriminate).
  split; [split_and!; [reflexivity|reflexivity|exact Hlen|exact Hpos]|].
  exact (fileLen_pure_query (opened [3; 1; 2]) eq_refl eq_refl Hlen Hpos).
Defined.

(** A file of [2^31] bytes or more is outside what [fileLen] can report:
    its result is the length modulo [2^32], read as a signed [int]. *)
Lemma fileLen_wraps d :
  (fileLen (stream_of d)).1 = to_int (sizeof_int * Z.of_nat (length d)).
Proof. by rewrite fileLen_stream_of. Qed.
(** ** C3: the runs of makeTempFiles *)



(** ** C1, C2, C6, C10: the output of the sort *)

Lemma sorted_fs_dest fs M input dest :
  sorted_fs fs M input dest !! dest = Some (std_sort input).
Proof. unfold sorted_fs. apply lookup_insert_eq. Qed.

Lemma sorted_fs_runs fs M input dest j :
  0 ≤ j ≤ last_run M 0 (Z.of_nat (length (sorted_chunks (Z.to_nat M) input))) →
  to_string j ≠ dest →
  sorted_fs fs M input dest !! to_string j = None.
Proof.
  intros Hj Hne. unfold sorted_fs. rewrite lookup_insert_ne by done.
  replace j with (0 + Z.of_nat (Z.to_nat j)) by lia.
  apply remove_runs_lookup_in. lia.
Qed.

Lemma sorted_fs_other fs M input dest s :
  s ≠ dest →
  sorted_fs fs M input dest !! s = None ∨ sorted_fs fs M input dest !! s = fs !! s.
Proof.
  intros Hne. unfold sorted_fs. rewrite lookup_insert_ne by done.
  set (n := Z.to_nat _).
  destruct (decide (s ∈ (λ j : nat, to_string (0 + Z.of_nat j)) <$> seq 0 n))
    as [(j & -> & Hj%elem_of_seq)%list_elem_of_fmap|Hnot].
  - left. apply remove_runs_lookup_in. lia.
  - right. apply remove_runs_lookup_out. intros j Hj ->. apply Hnot.
    apply list_elem_of_fmap. exists j. split; [done|]. apply elem_of_seq. lia.
Qed.

(** On an empty input file [makeTempFiles] creates no run, the loop of
    [mergeTempFiles] is not entered and the [rename] of line 234 finds no
    file "0": the sort ends with the directory as empty as it was, and
    no output file exists. *)
Lemma empty_input_no_output `{H : StdHeap FileInteger} fuel M dest :
  external_sort fuel ∅ (stream_of []) M dest = Normal ∅
  ∧ (∅ : filesystem) !! dest = None.
Proof.
  split; [|done].
  unfold external_sort, makeTempFiles.
  rewrite makeTempFiles_init_stream.
  assert (∀ st, amountLeftToRead st = 0 → makeTempFiles_loop fuel M st = Normal st)
    as Hloop.
  { intros st Hst. destruct fuel; cbn [makeTempFiles_loop];
      rewrite decide_False by lia; done. }
  rewrite Hloop by done. cbn [mbind outcome_bind g_fs fileNumber].
  unfold mergeTempFiles. rewrite merge_loop_done by (cbn; lia).
  done.
Qed.



Section output.
Context `{H : StdHeap FileInteger} `{!StdHeapLaws H FileInteger_cmp}.


(** C6.  The loop of lines 221-225 closes every stream of the batch and
    removes its file; a batch that completes leaves none of the run
    files it merged; and when the sort has found at least one [int],
    then after it no run file [0 .. last] is left, [last] being the name
    of the surviving run, which is now the destination: every other
    file of the directory is either gone or as it was before. *)
Theorem run_files_removed :
  (∀ files name fs,
     Forall (λ f, sopen f = false) (close_and_remove files name fs).1
     ∧ ∀ j : nat, (j < length files)%nat →
         (close_and_remove files name fs).2 !! to_string (name + Z.of_nat j) = None)
  ∧ (∀ M st st', merge_batch M st = Normal st' →
       ∀ j, currentFileNumToMerge st ≤ j < currentFileNumToMerge st' →
         p_fs st' !! to_string j = None)
  ∧ (∀ fuel fs d M dest,
       1 < M → (length d ≤ fuel)%nat → 1 ≤ int_count (length d) →
       let input := take (Z.to_nat (int_count (length d))) d in
       let last := last_run M 0 (Z.of_nat (length (sorted_chunks (Z.to_nat M) input))) in
       ∃ fs',
         external_sort fuel fs (stream_of d) M dest = Normal fs'
         ∧ 1 ≤ last
         ∧ (∀ j, 0 ≤ j ≤ last → to_string j ≠ dest → fs' !! to_string j = None)
         ∧ fs' !! dest = Some (std_sort input)
         ∧ (∀ s, s ≠ dest → fs' !! s = None ∨ fs' !! s = fs !! s)).
Proof.
  split_and!.
  - intros files name fs. split.
    + apply close_and_remove_closed.
    + intros j Hj. by apply close_and_remove_lookup_in.
  - intros M st st' Hbatch j Hj.
    destruct (merge_batch_step M st) as [_ Hstep].
    destruct (Hstep st' Hbatch) as (_ & Hcur & _ & Hgone).
    apply Hgone. lia.
  - intros fuel fs d M dest HM Hfuel Hn input last.
    eexists. split; [apply external_sort_spec; [lia|done]|].
    cbv zeta. rewrite decide_True by done. fold input.
    assert (1 ≤ last) as Hlast.
    { pose proof (last_run_ge M 0
        (Z.of_nat (length (sorted_chunks (Z.to_nat M) input))) ltac:(lia)) as Hge.
      fold last in Hge.
      assert (sorted_chunks (Z.to_nat M) input ≠ []) as Hne.
      { apply sorted_chunks_nonempty. intros Hnil%(f_equal length).
        unfold input in Hnil. rewrite length_take in Hnil.
        pose proof (int_count_le (length d)). simpl in Hnil. lia. }
      destruct (sorted_chunks (Z.to_nat M) input); [done|]. simpl in Hge. lia. }
    split_and!.
    + done.
    + intros j Hj Hne. by apply sorted_fs_runs.
    + apply sorted_fs_dest.
    + intros s Hs. by apply sorted_fs_other.
Qed.

End output.

(** ** C4: termination of mergeTempFiles *)

(** C4 (the code at the failing input).  With [run_count = 0] the loop
    of [mergeTempFiles] is not entered and the [rename] of line 234
    names run "0", which was never created: whatever the bound and the
    destination, nothing is renamed and no file exists at the
    destination. *)
Theorem mergeTempFiles_no_runs `{H : StdHeap FileInteger} fuel M dest :
  mergeTempFiles fuel ∅ 0 M dest = Normal ∅
  ∧ (∅ : filesystem) !! dest = None.
Proof.
  split; [|done]. unfold mergeTempFiles.
  rewrite merge_loop_done by (cbn; lia). done.
Qed.

Section termination.
Context `{H : StdHeap FileInteger} `{!StdHeapLaws H FileInteger_cmp}.

(** For every [run_count >= 0] and every bound above one
    [mergeTempFiles] terminates: the pass loop performs at most
    [run_count] batches, although the total counter is incremented after
    every batch that does not consume the last pending run (it ends at
    [last_run], at most twice [run_count]); and for [run_count >= 1],
    with the runs [0 .. run_count - 1] in place, the single surviving
    run is renamed to the destination. *)
Theorem mergeTempFiles_terminates fs total M dest :
  0 ≤ total → 1 < M →
  mergeTempFiles (Z.to_nat total) fs total M dest ≠ OutOfFuel
  ∧ (∀ fuel st', 0 < total →
       merge_loop fuel M (mergeTempFiles_init fs total) = Normal st' →
       currentFileNumToMerge st' = totalNumberOfFiles st'
       ∧ totalNumberOfFiles st' = last_run M 0 total
       ∧ total ≤ totalNumberOfFiles st' ≤ 2 * total)
  ∧ (∀ runs, runs ≠ [] → Z.of_nat (length runs) = total →
       runs_at fs 0 runs → runs_ok runs →
       mergeTempFiles (Z.to_nat total) fs total M dest
       = Normal (<[dest := std_sort (concat runs)]>
                   (remove_runs 0 (Z.to_nat (last_run M 0 total + 1)) fs))).
Proof.
  intros Htotal HM. split_and!.
  - unfold mergeTempFiles.
    pose proof (merge_loop_total (Z.to_nat total) M (mergeTempFiles_init fs total)) as Hloop.
    destruct (merge_loop _ _ _) as [st| |]; [done|done|].
    exfalso. apply Hloop; [lia|cbn; lia|done].
  - intros fuel st' Hpos Hrun.
    destruct (merge_loop_counters fuel M (mergeTempFiles_init fs total) st')
      as [Hcur Htot]; [lia|cbn; lia|done|].
    cbn [mergeTempFiles_init currentFileNumToMerge totalNumberOfFiles] in Htot.
    pose proof (last_run_ge M 0 total ltac:(lia)).
    pose proof (last_run_le M 0 total ltac:(lia) ltac:(lia)).
    split_and!; [done|done|lia..].
  - intros runs Hne <- Hat Hok.
    rewrite Nat2Z.id. apply mergeTempFiles_spec; [lia|done..].
Qed.

End termination.

(** ** C5: the memory bound *)

Section bound.
Context `{H : StdHeap FileInteger} `{!StdHeapLaws H FileInteger_cmp}.


End bound.

(** ** C7: a single run *)

Lemma sorted_chunks_single m d :
  d ≠ [] → length d = m → sorted_chunks m d = [std_sort d].
Proof.
  intros Hne Hlen. unfold sorted_chunks.
  destruct d as [|x l]; [done|]. rewrite Hlen.
  destruct m as [|m]; [done|]. cbn [chunks fmap list_fmap].
  rewrite take_ge by lia. rewrite drop_ge by lia.
  by destruct m.
Qed.

(** C7 (counterexample).  The input [2; 1] with bound 2 gives the single
    run [1; 2] in file "0"; the loop of [mergeTempFiles] cannot be left
    without executing a batch, and that batch writes run "1" and removes
    run "0": the output is the result of a merge pass, not run "0". *)
Lemma single_run_is_merged :
  makeTempFiles 2 ∅ (stream_of [2; 1]) 2 = Normal ({[ "0" := [1; 2] ]}, 1)
  ∧ merge_loop (H := binary_heap FileInteger) 0 2
      (mergeTempFiles_init {[ "0" := [1; 2] ]} 1) = OutOfFuel
  ∧ merge_batch (H := binary_heap FileInteger) 2
      (mergeTempFiles_init {[ "0" := [1; 2] ]} 1)
    = Normal {| p_fs := {[ "1" := [1; 2] ]};
                currentFileNumToMerge := 1; totalNumberOfFiles := 1 |}.
Proof. split_and!; by vm_compute. Qed.

Section single_run.
Context `{H : StdHeap FileInteger} `{!StdHeapLaws H FileInteger_cmp}.

(** C7 (amended).  For every non-empty input whose integer count equals
    the bound (and whose length in bytes is an [int]), [makeTempFiles]
    produces exactly one run, file 0 holding the sorted input;
    [mergeTempFiles] does not skip merging: its loop needs one batch,
    which opens that run alone, passes it through the frontier into
    file 1 and removes file 0; file 1 is renamed to the destination,
    which so holds the content of the single run. *)
Theorem single_run_one_batch fuel fs d M dest :
  d ≠ [] → Z.of_nat (length d) = M →
  sizeof_int * Z.of_nat (length d) ≤ int_max →
  (length d ≤ fuel)%nat →
  ∃ fs1,
    makeTempFiles fuel fs (stream_of d) M = Normal (fs1, 1)
    ∧ fs1 !! to_string 0 = Some (std_sort d)
    ∧ merge_loop 0 M (mergeTempFiles_init fs1 1) = OutOfFuel
    ∧ numFilesToOpen M (mergeTempFiles_init fs1 1) = 1
    ∧ (∃ fs2, merge_loop fuel M (mergeTempFiles_init fs1 1)
              = Normal {| p_fs := fs2; currentFileNumToMerge := 1;
                          totalNumberOfFiles := 1 |}
              ∧ fs2 !! to_string 1 = Some (std_sort d)
              ∧ fs2 !! to_string 0 = None)
    ∧ external_sort fuel fs (stream_of d) M dest
      = Normal (<[dest := std_sort d]> (remove_runs 0 2 fs)).
Proof.
  intros Hne HM Hsize Hfuel.
  assert (1 ≤ M) as HM1 by (destruct d; [done|simpl in HM; lia]).
  destruct fuel as [|fuel]; [lia|].
  pose proof (makeTempFiles_spec (S fuel) fs d M HM1) as Hgen.
  rewrite int_count_small, Nat2Z.id, firstn_all in Hgen by done.
  rewrite sorted_chunks_single in Hgen by (done || lia).
  cbn [write_runs length] in Hgen. specialize (Hgen ltac:(lia)).
  change (Z.of_nat 1) with 1 in Hgen.
  set (fs1 := <[to_string 0 := std_sort d]> fs) in *.
  assert (fs1 !! to_string 0 = Some (std_sort d)) as Hrun0
    by apply lookup_insert_eq.
  assert (run_ok (std_sort d)) as Hok.
  { split_and!.
    - intros Hnil%(f_equal length). rewrite std_sort_length in Hnil. by destruct d.
    - apply Sorted_merge_sort, _.
    - by rewrite std_sort_length. }
  destruct (mergeTempFiles_single fuel fs1 (std_sort d) M dest HM1 Hrun0 Hok)
    as (Hskip & Hk & Hbatch & Hmerge).
  exists fs1. split_and!; [done..|].
  unfold external_sort. rewrite Hgen. cbn [mbind outcome_bind].
  rewrite Hmerge. do 2 f_equal.
  apply (remove_runs_write_runs 2 [std_sort d] fs). simpl. lia.
Qed.

End single_run.
(** ** C8: a bound of one or less *)


Section degenerate.
Context `{H : StdHeap FileInteger} `{!StdHeapLaws H FileInteger_cmp}.





End degenerate.
(** ** The theorems at concrete inputs *)




Lemma mergeTempFiles_terminates_witness :
  (0 ≤ 3 ∧ 1 < 2)
  ∧ mergeTempFiles (H := binary_heap FileInteger) (Z.to_nat 3)
      {[ "0" := [3; 5]; "1" := [1; 4]; "2" := [2] ]} 3 2 "sorted" ≠ OutOfFuel.
Proof.
  assert (0 ≤ 3) as H1 by lia.
  assert (1 < 2) as H2 by lia.
  split; [by split|].
  exact (proj1 (mergeTempFiles_terminates (H := binary_heap FileInteger)
                  {[ "0" := [3; 5]; "1" := [1; 4]; "2" := [2] ]} 3 2 "sorted" H1 H2)).
Defined.


Lemma run_files_removed_witness :
  (1 < 2 ∧ (length [5; 3; 1; 4; 2] ≤ 5)%nat ∧ 1 ≤ int_count (length [5; 3; 1; 4; 2]))
  ∧ ∃ fs',
      external_sort (H := binary_heap FileInteger) 5 ∅
        (stream_of [5; 3; 1; 4; 2]) 2 "sorted" = Normal fs'
      ∧ fs' !! "sorted" = Some [1; 2; 3; 4; 5]
      ∧ (∀ s, s ≠ "sorted" → fs' !! s = None).
Proof.
  assert (1 < 2) as H1 by lia.
  assert (length [5; 3; 1; 4; 2] ≤ 5)%nat as H2 by (simpl; lia).
  assert (1 ≤ int_count (length [5; 3; 1; 4; 2])) as H3 by (vm_compute; discriminate).
  split; [by split_and!|].
  destruct (proj2 (proj2 (run_files_removed (H := binary_heap FileInteger)))
              5%nat ∅ [5; 3; 1; 4; 2] 2 "sorted" H1 H2 H3)
    as (fs' & Hrun & _ & _ & Hdest & Hother).
  exists fs'. split; [exact Hrun|]. split; [exact Hdest|].
  intros s Hs. destruct (Hother s Hs) as [Hnone|Hsame]; [exact Hnone|].
  rewrite Hsame. apply lookup_empty.
Defined.

Lemma single_run_one_batch_witness :
  ([2; 1] ≠ [] ∧ Z.of_nat (length [2; 1]) = 2
   ∧ sizeof_int * Z.of_nat (length [2; 1]) ≤ int_max
   ∧ (length [2; 1] ≤ 2)%nat)
  ∧ ∃ fs1,
      makeTempFiles 2 ∅ (stream_of [2; 1]) 2 = Normal (fs1, 1)
      ∧ fs1 !! to_string 0 = Some (std_sort [2; 1])
      ∧ merge_loop (H := binary_heap FileInteger) 0 2 (mergeTempFiles_init fs1 1)
        = OutOfFuel
      ∧ numFilesToOpen 2 (mergeTempFiles_init fs1 1) = 1
      ∧ (∃ fs2, merge_loop (H := binary_heap FileInteger) 2 2 (mergeTempFiles_init fs1 1)
                = Normal {| p_fs := fs2; currentFileNumToMerge := 1;
                            totalNumberOfFiles := 1 |}
                ∧ fs2 !! to_string 1 = Some (std_sort [2; 1])
                ∧ fs2 !! to_string 0 = None)
      ∧ external_sort (H := binary_heap FileInteger) 2 ∅ (stream_of [2; 1]) 2 "sorted"
        = Normal (<["sorted" := std_sort [2; 1]]> (remove_runs 0 2 ∅)).
Proof.
  assert ([2; 1] ≠ ([] : list Z)) as H1 by discriminate.
  assert (Z.of_nat (length [2; 1]) = 2) as H2 by reflexivity.
  assert (sizeof_int * Z.of_nat (length [2; 1]) ≤ int_max) as H3
    by (vm_compute; discriminate).
  assert (length [2; 1] ≤ 2)%nat as H4 by (simpl; lia).
  split; [by split_and!|].
  exact (single_run_one_batch (H := binary_heap FileInteger)
           2 ∅ [2; 1] 2 "sorted" H1 H2 H3 H4).
Defined.

(** * Further properties of the program *)

(** ** fileLen on a stream that cannot be read *)

(** [fileLen] reports no error.  On a stream that is not open (the file
    could not be opened) or that has [failbit] set every [tellg] answers
    -1, so that the difference of line 264 is 0: the length reported is
    0 whatever the file holds.  The [clear()] of line 260 resets the
    flags and the [seekg(-1)] that follows sets [failbit] again: the
    stream is left failed, with [eofbit] reset, its file and position
    untouched. *)
Theorem fileLen_unreadable_stream s :
  sopen s = false ∨ sfail s = true →
  (fileLen s).1 = 0
  ∧ sfail (fileLen s).2 = true
  ∧ seof (fileLen s).2 = false
  ∧ sopen (fileLen s).2 = sopen s
  ∧ sdata (fileLen s).2 = sdata s
  ∧ spos (fileLen s).2 = spos s.
Proof.
  destruct s as [o d p e f]. cbn [sopen sfail].
  intros [-> | ->]; destruct e; try destruct f; try destruct o; by vm_compute.
Qed.

Lemma fileLen_unreadable_stream_witness :
  let s := open_in ∅ "missing" in
  (sopen s = false ∨ sfail s = true)
  ∧ (fileLen s).1 = 0.
Proof.
  cbv zeta.
  assert (sopen (open_in ∅ "missing") = false ∨ sfail (open_in ∅ "missing") = true)
    as Hs by (left; reflexivity).
  split; [exact Hs|].
  exact (proj1 (fileLen_unreadable_stream (open_in ∅ "missing") Hs)).
Defined.

(** ** The comparison of FileInteger.h and the frontier *)

(** [FileInteger::operator()] compares cursors by [value] alone, with
    [>]: it is a strict weak ordering, as the heap algorithms require
    (irreflexive, transitive, and so is its complement), and two cursors
    neither of which compares before the other hold the same value.
    With it the heap of the standard library, which keeps a greatest
    element in front, keeps a least [value] in front: whatever
    implementation of the algorithms is used, the front of the frontier
    after [make_heap] (line 177) and after [push_heap] (line 212) is a
    cursor of least value. *)
Theorem frontier_is_min_heap `{H : StdHeap FileInteger}
    `{!StdHeapLaws H FileInteger_cmp} :
  (∀ a, FileInteger_cmp a a = false)
  ∧ (∀ a b c, FileInteger_cmp a b = true → FileInteger_cmp b c = true →
       FileInteger_cmp a c = true)
  ∧ (∀ a b c, FileInteger_cmp a b = false → FileInteger_cmp b c = false →
       FileInteger_cmp a c = false)
  ∧ (∀ a b, FileInteger_cmp a b = false → FileInteger_cmp b a = false →
       value a = value b)
  ∧ (∀ v x w fi,
       make_heap FileInteger_cmp v = x :: w → fi ∈ v → value x ≤ value fi)
  ∧ (∀ v y x w fi,
       is_heap FileInteger_cmp v →
       push_heap FileInteger_cmp (v ++ [y]) = x :: w →
       fi ∈ v ++ [y] → value x ≤ value fi).
Proof.
  unfold FileInteger_cmp. split_and!.
  - intros a. apply bool_decide_eq_false. lia.
  - intros a b c Hab%bool_decide_eq_true Hbc%bool_decide_eq_true.
    apply bool_decide_eq_true. lia.
  - intros a b c Hab%bool_decide_eq_false Hbc%bool_decide_eq_false.
    apply bool_decide_eq_false. lia.
  - intros a b Hab%bool_decide_eq_false Hba%bool_decide_eq_false. lia.
  - intros v x w fi Hv Hfi.
    apply (FileInteger_heap_front x w).
    + rewrite <- Hv. apply make_heap_is_heap.
    + fold FileInteger_cmp in Hv. rewrite <- Hv.
      by rewrite (make_heap_perm (comp := FileInteger_cmp)).
  - intros v y x w fi Hheap Hv Hfi.
    apply (FileInteger_heap_front x w).
    + rewrite <- Hv. by apply push_heap_is_heap.
    + fold FileInteger_cmp in Hv. rewrite <- Hv.
      by rewrite (push_heap_perm (comp := FileInteger_cmp)).
Qed.

Lemma frontier_is_min_heap_witness :
  StdHeapLaws (binary_heap FileInteger) FileInteger_cmp
  ∧ ∀ v x w fi,
      make_heap (StdHeap := binary_heap FileInteger) FileInteger_cmp v = x :: w →
      fi ∈ v → value x ≤ value fi.
Proof.
  split; [exact (binary_heap_laws FileInteger_cmp)|].
  exact (proj1 (proj2 (proj2 (proj2 (proj2
           (frontier_is_min_heap (H := binary_heap FileInteger))))))).
Defined.


(** ** makeTempFiles with a bound of one or less *)




(** ** makeTempFiles: the stream it is given, and the length of its runs *)

Lemma makeTempFiles_loop_short fuel M st :
  1 ≤ M →
  good (unsortedFile st) = true →
  (spos (unsortedFile st) ≤ length (sdata (unsortedFile st)))%nat →
  Z.of_nat (length (sdata (unsortedFile st))) - Z.of_nat (spos (unsortedFile st))
    < amountLeftToRead st →
  amountLeftToRead st ≤ Z.of_nat fuel →
  makeTempFiles_loop fuel M st = Fault UninitialisedRead.
Proof.
  intros HM. revert st.
  induction fuel as [|fuel IH]; intros [fs file amount number];
    cbn [unsortedFile amountLeftToRead]; intros Hgood Hpos Hshort Hfuel; [lia|].
  cbn [makeTempFiles_loop amountLeftToRead].
  destruct (decide (amount > 0)) as [_|]; [|lia].
  unfold makeTempFiles_body, numToRead.
  cbn [unsortedFile amountLeftToRead g_fs fileNumber].
  set (n := if decide (amount < M) then amount else M).
  assert (1 ≤ n ≤ amount) as Hn by (subst n; case_decide; lia).
  destruct (decide (n < 0)) as [|_]; [lia|].
  destruct (decide (spos file + Z.to_nat n ≤ length (sdata file))%nat)
    as [Hfits | Hpast].
  - rewrite read_ints_good by done.
    rewrite decide_False
      by (rewrite length_take, length_drop; lia).
    cbn [mbind outcome_bind]. apply IH; cbn; try lia.
    by destruct file.
  - unfold read_ints. rewrite sentry_good by done.
    apply good_flags in Hgood as [_ ->].
    rewrite decide_True by (rewrite length_take, length_drop; lia).
    rewrite decide_True by (rewrite length_take, length_drop; lia).
    done.
Qed.

(** [makeTempFiles] takes the number of integers to read from the
    length of the whole file (line 95), and reads from where the stream
    stands: it has to be given a stream at the beginning of its file.
    On a stream from which [p >= 1] integers have already been read,
    the last [read] (line 110) ends [p] integers short, and the buffer
    is sorted and written with integers no read has filled. *)
Theorem makeTempFiles_stream_not_at_start fuel fs d p M :
  1 ≤ M → (1 ≤ p ≤ length d)%nat →
  sizeof_int * Z.of_nat (length d) ≤ int_max →
  (length d ≤ fuel)%nat →
  makeTempFiles fuel fs (set_pos (stream_of d) p) M = Fault UninitialisedRead.
Proof.
  intros HM Hp Hlen Hfuel. unfold makeTempFiles, makeTempFiles_init.
  rewrite fileLen_good; cbn [set_pos stream_of sopen sdata spos];
    [|done|done|done|unfold sizeof_int in *; lia].
  rewrite div_sizeof_bytes, to_int_small by (unfold int_max, sizeof_int in *; lia).
  rewrite makeTempFiles_loop_short; cbn; (done || lia).
Qed.

Lemma makeTempFiles_stream_not_at_start_witness :
  (1 ≤ 2 ∧ (1 ≤ 1 ≤ length [5; 3; 8])%nat
   ∧ sizeof_int * Z.of_nat (length [5; 3; 8]) ≤ int_max
   ∧ (length [5; 3; 8] ≤ 3)%nat)
  ∧ makeTempFiles 3 ∅ (set_pos (stream_of [5; 3; 8]) 1) 2
    = Fault UninitialisedRead.
Proof.
  assert (1 ≤ 2) as H1 by lia.
  assert (1 ≤ 1 ≤ length [5; 3; 8])%nat as H2 by (simpl; lia).
  assert (sizeof_int * Z.of_nat (length [5; 3; 8]) ≤ int_max) as H3
    by (vm_compute; discriminate).
  assert (length [5; 3; 8] ≤ 3)%nat as H4 by (simpl; lia).
  split; [split_and!; (assumption || (simpl; lia))|].
  exact (makeTempFiles_stream_not_at_start 3 ∅ [5; 3; 8] 1 2 H1 H2 H3 H4).
Defined.

(** The runs of [makeTempFiles] are full but for the last.  For an
    input of [n] integers (its length in bytes being an [int]) and a
    bound of at least one, every run but the last holds exactly [bound]
    integers, and the last holds the [n - (run_count - 1) * bound]
    that are left, at least one and at most [bound]. *)
Theorem makeTempFiles_run_lengths fuel fs d M :
  1 ≤ M → sizeof_int * Z.of_nat (length d) ≤ int_max →
  (length d ≤ fuel)%nat →
  ∃ fs' count,
    makeTempFiles fuel fs (stream_of d) M = Normal (fs', count)
    ∧ ∀ i, 0 ≤ i < count →
        ∃ r, fs' !! to_string i = Some r
           ∧ (i < count - 1 → Z.of_nat (length r) = M)
           ∧ (i = count - 1 →
              Z.of_nat (length r) = Z.of_nat (length d) - (count - 1) * M
              ∧ 1 ≤ Z.of_nat (length r) ≤ M).
Proof.
  intros HM Hlen Hfuel.
  pose proof (makeTempFiles_spec fuel fs d M HM) as Hspec.
  rewrite int_count_small in Hspec by done.
  specialize (Hspec ltac:(lia)). cbv zeta in Hspec.
  rewrite Nat2Z.id, firstn_all in Hspec.
  set (runs := sorted_chunks (Z.to_nat M) d) in *.
  exists (write_runs 0 runs fs), (Z.of_nat (length runs)).
  split; [done|]. intros i Hi.
  assert (Z.to_nat i < length runs)%nat as Hlt by lia.
  apply lookup_lt_is_Some in Hlt as [r Hr]. exists r.
  pose proof (sorted_chunks_length (Z.to_nat M) d ltac:(lia)) as Hcount.
  fold runs in Hcount. rewrite Z2Nat.id in Hcount by lia.
  assert (length r
          = (Z.to_nat M `min` (length d - Z.to_nat i * Z.to_nat M))%nat) as Hr'.
  { apply sorted_chunks_lookup in Hr as ->.
    by rewrite std_sort_length, length_take, length_drop. }
  assert ((Z.of_nat (length runs) - 1) * M < Z.of_nat (length d)
          ∧ Z.of_nat (length d) ≤ Z.of_nat (length runs) * M) as [Hlo Hhi].
  { rewrite Hcount.
    pose proof (Z.div_mod (Z.of_nat (length d) + M - 1) M ltac:(lia)).
    pose proof (Z.mod_pos_bound (Z.of_nat (length d) + M - 1) M ltac:(lia)).
    nia. }
  split_and!.
  - replace i with (0 + Z.of_nat (Z.to_nat i)) by lia.
    rewrite write_runs_lookup by lia. done.
  - intros Hfull. nia.
  - intros Hlast. nia.
Qed.

Lemma makeTempFiles_run_lengths_witness :
  (1 ≤ 2 ∧ sizeof_int * Z.of_nat (length [5; 3; 8]) ≤ int_max
   ∧ (length [5; 3; 8] ≤ 3)%nat)
  ∧ ∃ fs' count,
      makeTempFiles 3 ∅ (stream_of [5; 3; 8]) 2 = Normal (fs', count)
      ∧ ∀ i, 0 ≤ i < count →
          ∃ r, fs' !! to_string i = Some r
             ∧ (i < count - 1 → Z.of_nat (length r) = 2)
             ∧ (i = count - 1 →
                Z.of_nat (length r) = Z.of_nat (length [5; 3; 8]) - (count - 1) * 2
                ∧ 1 ≤ Z.of_nat (length r) ≤ 2).
Proof.
  assert (1 ≤ 2) as H1 by lia.
  assert (sizeof_int * Z.of_nat (length [5; 3; 8]) ≤ int_max) as H2
    by (vm_compute; discriminate).
  assert (length [5; 3; 8] ≤ 3)%nat as H3 by (simpl; lia).
  split; [by split_and!|].
  exact (makeTempFiles_run_lengths 3 ∅ [5; 3; 8] 2 H1 H2 H3).
Defined.

(** ** mergeTempFiles without runs *)

(** Called with no run to merge ([run_count <= 0]) [mergeTempFiles]
    does not enter its loop and performs the [rename] of line 234 on
    the name "0": a directory without such a file is left as it is, and
    no file appears at the destination; a file that happens to be named
    "0" is moved to the destination, replacing what was there, and no
    other file changes. *)
Theorem mergeTempFiles_without_runs `{H : StdHeap FileInteger}
    fuel fs total M dest :
  total ≤ 0 →
  ∃ fs',
    mergeTempFiles fuel fs total M dest = Normal fs'
    ∧ (fs !! to_string 0 = None → fs' = fs)
    ∧ (∀ d, fs !! to_string 0 = Some d →
         fs' !! dest = Some d
         ∧ (dest ≠ to_string 0 → fs' !! to_string 0 = None)
         ∧ ∀ s, s ≠ dest → s ≠ to_string 0 → fs' !! s = fs !! s).
Proof.
  intros Htotal. exists (rename (to_string 0) dest fs). split_and!.
  - unfold mergeTempFiles.
    rewrite merge_loop_done by (cbn; lia). done.
  - intros Hnone. unfold rename. by rewrite Hnone.
  - intros d Hd. unfold rename. rewrite Hd. split_and!.
    + apply lookup_insert_eq.
    + intros Hne. rewrite lookup_insert_ne by done. apply lookup_delete_eq.
    + intros s Hs1 Hs2. rewrite lookup_insert_ne by done.
      by rewrite lookup_delete_ne.
Qed.

Lemma mergeTempFiles_without_runs_witness :
  0 ≤ 0
  ∧ ∃ fs',
      mergeTempFiles (H := binary_heap FileInteger) 5
        {[ "0" := [9; 8]; "sorted" := [1] ]} 0 2 "sorted" = Normal fs'
      ∧ fs' !! "sorted" = Some [9; 8].
Proof.
  assert (0 ≤ 0) as H0 by lia.
  split; [exact H0|].
  destruct (mergeTempFiles_without_runs (H := binary_heap FileInteger) 5
              {[ "0" := [9; 8]; "sorted" := [1] ]} 0 2 "sorted" H0)
    as (fs' & Hrun & _ & Hsome).
  exists fs'. split; [exact Hrun|].
  exact (proj1 (Hsome [9; 8] eq_refl)).
Defined.

(** ** Run files that are missing or empty *)

Section missing.
Context `{H : StdHeap FileInteger}.

(** Lines 164-174 on a run file that does not exist or holds nothing:
    the [read] of line 168 extracts nothing and [fi->value] is used as
    it was allocated. *)
Lemma open_run_unreadable fs i name :
  fs !! to_string name = None ∨ fs !! to_string name = Some [] →
  open_run fs i name = Fault UninitialisedRead.
Proof.
  intros [Hf | Hf]; unfold open_run, open_in; rewrite Hf; reflexivity.
Qed.

Lemma open_run_outcome fs i name :
  open_run fs i name = Fault UninitialisedRead
  ∨ ∃ r, open_run fs i name = Normal r.
Proof.
  unfold open_run.
  destruct (read_ints 1 (open_in fs (to_string name))) as [buf file].
  destruct (fileLen file) as [len file'].
  destruct buf; eauto.
Qed.

Lemma open_runs_unreadable fs n i name (j : nat) :
  (j < n)%nat →
  fs !! to_string (name + Z.of_nat j) = None
  ∨ fs !! to_string (name + Z.of_nat j) = Some [] →
  open_runs fs i name n = Fault UninitialisedRead.
Proof.
  revert i name j. induction n as [|n IH]; intros i name j Hj Hbad; [lia|].
  cbn [open_runs].
  destruct j as [|j].
  - rewrite Z.add_0_r in Hbad. by rewrite open_run_unreadable.
  - destruct (open_run_outcome fs i name) as [-> | [[file fi] ->]]; [done|].
    cbn. rewrite (IH (S i) (name + 1) j); [done|lia|].
    by replace (name + 1 + Z.of_nat j) with (name + Z.of_nat (S j)) by lia.
Qed.

(** [mergeTempFiles] relies on every run file it is told of being there
    and holding at least one integer.  When one of the runs of the first
    batch (run [j] with [j < run_count] and [j < bound]) is missing or
    empty, the value of its cursor is never read from the file
    (line 168 fails) and the batch works with an uninitialised
    [int]. *)
Theorem mergeTempFiles_missing_run fuel fs total M dest j :
  0 ≤ j → j < total → j < M →
  fs !! to_string j = None ∨ fs !! to_string j = Some [] →
  mergeTempFiles (S fuel) fs total M dest = Fault UninitialisedRead.
Proof.
  intros Hj0 Hjt HjM Hbad.
  unfold mergeTempFiles, mergeTempFiles_init. cbn [merge_loop].
  cbn [currentFileNumToMerge totalNumberOfFiles].
  destruct (decide (0 < total)) as [_|]; [|lia].
  unfold merge_batch, batch_open.
  set (k := numFilesToOpen M _).
  assert (j < k) as Hk.
  { subst k. unfold numFilesToOpen.
    cbn [currentFileNumToMerge totalNumberOfFiles].
    destruct (decide (total - 0 < M)); lia. }
  destruct (decide (k < 0)) as [|_]; [lia|]. cbn [p_fs currentFileNumToMerge].
  rewrite (open_runs_unreadable _ _ _ _ (Z.to_nat j)); [done|lia|].
  by rewrite Z.add_0_l, Z2Nat.id by lia.
Qed.

End missing.

Lemma mergeTempFiles_missing_run_witness :
  (0 ≤ 1 ∧ 1 < 2 ∧ 1 < 2)
  ∧ mergeTempFiles (H := binary_heap FileInteger) 1
      {[ "0" := [4; 6] ]} 2 2 "sorted" = Fault UninitialisedRead.
Proof.
  assert (0 ≤ 1) as H1 by lia.
  assert (1 < 2) as H2 by lia.
  split; [by split_and!|].
  exact (mergeTempFiles_missing_run (H := binary_heap FileInteger)
           0 {[ "0" := [4; 6] ]} 2 2 "sorted" 1 H1 H2 H2 (or_introl eq_refl)).
Defined.

(** ** One step of the merge *)

Section step.
Context `{H : StdHeap FileInteger} `{!StdHeapLaws H FileInteger_cmp}.

Lemma heap_body_written st st' x v :
  fileData st = x :: v → heap_body st = Normal st' →
  written st' = written st ++ [value x].
Proof.
  intros Hv. unfold heap_body. rewrite Hv.
  destruct (decide (numLeftToRead x > 0)); [|by intros [= <-]].
  destruct (filesToMerge st !! ptrFileReadFrom x) as [file|]; [|done].
  destruct (read_ints 1 file) as [[|nv buf] file']; [done|].
  by intros [= <-].
Qed.

Lemma pending_ge_front files x v y :
  is_heap FileInteger_cmp (x :: v) →
  Forall (cursor_ok files) (x :: v) →
  y ∈ pending files (x :: v) → value x ≤ y.
Proof.
  intros Hheap Hok Hy. unfold pending in Hy.
  apply list_elem_of_bind in Hy as (fi & Hy & Hfi).
  pose proof (FileInteger_heap_front x v fi Hheap Hfi) as Hle.
  rewrite Forall_forall in Hok.
  destruct (Hok fi Hfi) as (s & Hs & _ & _ & Hsorted).
  unfold cursor_rest in Hy. rewrite Hs in Hy.
  apply elem_of_cons in Hy as [-> | Hy]; [done|].
  apply Sorted_StronglySorted in Hsorted; [|intros ???; lia].
  apply StronglySorted_inv in Hsorted as [_ Hall].
  rewrite Forall_forall in Hall. specialize (Hall y Hy). lia.
Qed.

(** Each iteration of the loop of lines 185-216, entered in a state
    that satisfies the invariant of the merge (the frontier is a heap of
    cursors that agree with their streams), appends to the output file
    one value, which is a least one among all the values still to be
    written (those of the frontier and those not yet read from the open
    runs); that value leaves the values still to be written, nothing
    else does, and the invariant holds again. *)
Theorem heap_body_writes_minimum total st :
  heap_inv total st → fileData st ≠ [] →
  ∃ st' x,
    heap_body st = Normal st'
    ∧ written st' = written st ++ [x]
    ∧ pending (filesToMerge st) (fileData st)
      ≡ₚ x :: pending (filesToMerge st') (fileData st')
    ∧ (∀ y, y ∈ pending (filesToMerge st) (fileData st) → x ≤ y)
    ∧ heap_inv total st'.
Proof.
  intros Hinv Hne.
  destruct (heap_body_inv total st Hinv Hne) as (st' & Hbody & Hinv' & _).
  destruct (fileData st) as [|x v] eqn:Hv; [done|].
  exists st', (value x).
  pose proof (heap_body_written st st' x v Hv Hbody) as Hw.
  split_and!; try done.
  - pose proof (inv_perm _ _ Hinv) as Hp.
    pose proof (inv_perm _ _ Hinv') as Hp'.
    rewrite Hv in Hp. rewrite Hw, <- Hp, <- app_assoc in Hp'.
    apply (inj (app (written st))) in Hp'. by rewrite <- Hp'.
  - intros y Hy. apply (pending_ge_front (filesToMerge st) x v).
    + rewrite <- Hv. apply Hinv.
    + rewrite <- Hv. apply Hinv.
    + done.
Qed.

End step.

Lemma heap_body_writes_minimum_witness :
  let st := {| fileData := make_heap (StdHeap := binary_heap FileInteger)
                             FileInteger_cmp (first_cursors 0 [[3; 5]; [1; 4]]);
               filesToMerge := opened <$> [[3; 5]; [1; 4]];
               written := [] |} in
  (heap_inv (concat [[3; 5]; [1; 4]]) st ∧ fileData st ≠ [])
  ∧ ∃ st' x,
      heap_body (H := binary_heap FileInteger) st = Normal st'
      ∧ written st' = written st ++ [x]
      ∧ pending (filesToMerge st) (fileData st)
        ≡ₚ x :: pending (filesToMerge st') (fileData st')
      ∧ (∀ y, y ∈ pending (filesToMerge st) (fileData st) → x ≤ y)
      ∧ heap_inv (concat [[3; 5]; [1; 4]]) st'.
Proof.
  cbv zeta.
  assert (Forall run_ok [[3; 5]; [1; 4]]) as Hruns.
  { repeat constructor; try done; vm_compute; discriminate. }
  pose proof (heap_inv_init (H := binary_heap FileInteger) _ Hruns) as Hinv.
  assert (fileData
            {| fileData := make_heap (StdHeap := binary_heap FileInteger)
                             FileInteger_cmp (first_cursors 0 [[3; 5]; [1; 4]]);
               filesToMerge := opened <$> [[3; 5]; [1; 4]];
               written := [] |} ≠ []) as Hne by (vm_compute; discriminate).
  split; [by split|].
  exact (heap_body_writes_minimum (H := binary_heap FileInteger) _ _ Hinv Hne).
Defined.

(** ** The iterations of the inner loop *)

Section iterations.
Context `{H : StdHeap FileInteger} `{!StdHeapLaws H FileInteger_cmp}.

Lemma heap_loop_exact total fuel st :
  heap_inv total st →
  ((fuel < heap_fuel (fileData st))%nat → heap_loop fuel st = OutOfFuel)
  ∧ ((heap_fuel (fileData st) ≤ fuel)%nat →
     ∃ st', heap_loop fuel st = Normal st'
          ∧ fileData st' = []
          ∧ written st' = std_sort total).
Proof.
  revert st. induction fuel as [|fuel IH]; intros st Hinv.
  - destruct (fileData st) as [|x v] eqn:Hv.
    + split; [cbn; lia|]. intros _. exists st. cbn. rewrite Hv.
      split_and!; try done.
      apply Sorted_perm_std_sort; [apply Hinv|].
      pose proof (inv_perm _ _ Hinv) as Hp. rewrite Hv in Hp.
      cbn in Hp. by rewrite app_nil_r in Hp.
    + rewrite heap_fuel_cons. split; [|lia]. intros _. cbn. by rewrite Hv.
  - destruct (fileData st) as [|x v] eqn:Hv.
    + split; [cbn; lia|]. intros _. exists st. cbn. rewrite Hv.
      split_and!; try done.
      apply Sorted_perm_std_sort; [apply Hinv|].
      pose proof (inv_perm _ _ Hinv) as Hp. rewrite Hv in Hp.
      cbn in Hp. by rewrite app_nil_r in Hp.
    + destruct (heap_body_inv total st Hinv) as (st' & Hbody & Hinv' & Hfuel & _);
        [by rewrite Hv|].
      rewrite Hv in Hfuel.
      cbn [heap_loop]. rewrite Hv, Hbody. cbn [mbind outcome_bind].
      destruct (IH st' Hinv') as [IHout IHnormal].
      split; intros Hlt; [apply IHout | apply IHnormal]; lia.
Qed.

Lemma heap_fuel_first_cursors i runs :
  Forall run_ok runs →
  heap_fuel (first_cursors i runs) = length (concat runs).
Proof.
  revert i. induction runs as [|d runs IH]; intros i Hok; [done|].
  apply Forall_cons in Hok as [(Hd & _) Hok].
  cbn [first_cursors concat]. rewrite heap_fuel_cons, length_app, IH by done.
  cbn [first_cursor numLeftToRead]. destruct d; [done|]. cbn [length]. lia.
Qed.

(** The loop of lines 185-216, started on the frontier of a batch of
    non-empty ascending runs (lines 158-177), executes exactly as many
    iterations as the runs hold integers: each iteration writes one
    integer and reads at most one.  With fewer iterations it has not
    ended; with that many it has ended with an empty frontier and all the
    values of the runs written, in ascending order. *)
Theorem heap_loop_iterations fuel runs :
  Forall run_ok runs →
  let h0 := {| fileData := make_heap FileInteger_cmp (first_cursors 0 runs);
               filesToMerge := opened <$> runs;
               written := [] |} in
  ((fuel < length (concat runs))%nat → heap_loop fuel h0 = OutOfFuel)
  ∧ ((length (concat runs) ≤ fuel)%nat →
     ∃ h, heap_loop fuel h0 = Normal h
        ∧ fileData h = []
        ∧ written h = std_sort (concat runs)).
Proof.
  intros Hok h0.
  pose proof (heap_inv_init runs Hok) as Hinv. fold h0 in Hinv.
  pose proof (heap_loop_exact (concat runs) fuel h0 Hinv) as Hexact.
  assert (heap_fuel (fileData h0) = length (concat runs)) as Hfuel.
  { unfold h0. cbn [fileData].
    rewrite (make_heap_perm (comp := FileInteger_cmp)).
    by apply heap_fuel_first_cursors. }
  by rewrite Hfuel in Hexact.
Qed.

End iterations.

Lemma heap_loop_iterations_witness :
  let runs := [[3; 5]; [1; 4]] in
  let h0 := {| fileData := make_heap (StdHeap := binary_heap FileInteger)
                             FileInteger_cmp (first_cursors 0 runs);
               filesToMerge := opened <$> runs;
               written := [] |} in
  Forall run_ok runs
  ∧ heap_loop (H := binary_heap FileInteger) 3 h0 = OutOfFuel
  ∧ ∃ h, heap_loop (H := binary_heap FileInteger) 4 h0 = Normal h
       ∧ fileData h = []
       ∧ written h = std_sort (concat runs).
Proof.
  cbv zeta.
  assert (Forall run_ok [[3; 5]; [1; 4]]) as Hruns.
  { repeat constructor; try done; vm_compute; discriminate. }
  split; [exact Hruns|]. split.
  - exact (proj1 (heap_loop_iterations (H := binary_heap FileInteger) 3 _ Hruns)
                 ltac:(simpl; lia)).
  - exact (proj2 (heap_loop_iterations (H := binary_heap FileInteger) 4 _ Hruns)
                 ltac:(simpl; lia)).
Defined.

(** ** One batch, and the batches of a merge *)

Section batches.
Context `{H : StdHeap FileInteger} `{!StdHeapLaws H FileInteger_cmp}.

(** One iteration of the loop of lines 149-231 is a k-way merge.  With
    [cur < total] pending runs and a bound of at least one, the batch
    takes the [k = min (total - cur, bound)] runs [cur .. cur + k - 1]
    (non-empty, ascending); it writes run [total], which holds the
    values of those [k] runs, all of them and in ascending order;
    it removes the [k] runs it has read and changes no other file; it
    advances [currentFileNumToMerge] by [k], and adds one to
    [totalNumberOfFiles] unless it has consumed the last pending run. *)
Theorem merge_batch_merges M fs cur total b :
  1 ≤ M → cur < total →
  Z.of_nat (length b) = Z.min (total - cur) M →
  runs_at fs cur b → Forall run_ok b →
  ∃ fs' out,
    merge_batch M {| p_fs := fs; currentFileNumToMerge := cur;
                     totalNumberOfFiles := total |}
    = Normal {| p_fs := fs';
                currentFileNumToMerge := cur + Z.of_nat (length b);
                totalNumberOfFiles :=
                  if decide (cur + Z.of_nat (length b) = total)
                  then total else total + 1 |}
    ∧ fs' !! to_string total = Some out
    ∧ out ≡ₚ concat b
    ∧ Sorted Z.le out
    ∧ (∀ j, cur ≤ j < cur + Z.of_nat (length b) → fs' !! to_string j = None)
    ∧ (∀ s, s ≠ to_string total →
         (∀ j, cur ≤ j < cur + Z.of_nat (length b) → s ≠ to_string j) →
         fs' !! s = fs !! s).
Proof.
  intros HM Hcur Hlen Hat Hok.
  set (st := {| p_fs := fs; currentFileNumToMerge := cur;
                totalNumberOfFiles := total |}).
  assert (numFilesToOpen M st = Z.of_nat (length b)) as Hk.
  { unfold numFilesToOpen, st. cbn. case_decide; lia. }
  destruct (merge_batch_spec M st b) as (fs' & Hrun & Hout & Hgone & Hframe);
    [by rewrite Hk|done|done|].
  cbn [st currentFileNumToMerge totalNumberOfFiles p_fs] in *.
  rewrite Hk in *.
  exists fs', (std_sort (concat b)). split_and!; try done.
  - rewrite Hrun. do 2 f_equal. repeat case_decide; (done || lia).
  - apply (merge_sort_Permutation Z.le).
  - apply (Sorted_merge_sort Z.le).
Qed.

(** The first phase of the invariant of the pass loop: between two
    batches all the data is in the run files still to be merged. *)
Lemma merge_reach_inv M fs runs st :
  1 < M → runs ≠ [] → runs_at fs 0 runs → runs_ok runs →
  reach (λ st, currentFileNumToMerge st < totalNumberOfFiles st)
        (merge_batch M) (mergeTempFiles_init fs (Z.of_nat (length runs))) st →
  ∃ pend,
    runs_at (p_fs st) (currentFileNumToMerge st) pend
    ∧ runs_ok pend
    ∧ concat pend ≡ₚ concat runs
    ∧ Z.of_nat (length pend)
      = Z.max 1 (totalNumberOfFiles st - currentFileNumToMerge st)
    ∧ currentFileNumToMerge st ≤ totalNumberOfFiles st
    ∧ (∀ j, 0 ≤ j < currentFileNumToMerge st → p_fs st !! to_string j = None).
Proof.
  intros HM Hne Hat Hok Hreach.
  induction Hreach as [|st st' Hreach IH Hcond Hbody].
  - exists runs. cbn. split_and!; try done.
    + destruct runs; [done|]. cbn [length]. lia.
    + lia.
    + lia.
  - destruct IH as (pend & Hpat & Hpok & Hperm & Hlen & Hle & Hbelow).
    destruct st as [fs0 cur total]. cbn in *.
    rewrite Z.max_r in Hlen by lia.
    destruct (decide (M < total - cur)) as [Hmore | Hlast].
    + destruct (merge_batch_more M fs0 cur total pend)
        as (fs' & merged & Hrun & Hat' & Hok' & Hperm' & Hgone & Hframe);
        [lia|done|done|done|done|].
      rewrite Hrun in Hbody. injection Hbody as <-. cbn.
      exists (drop (Z.to_nat M) pend ++ [merged]). split_and!; try done.
      * by rewrite Hperm'.
      * rewrite length_app, length_drop. cbn. lia.
      * lia.
      * intros j Hj. destruct (decide (j < cur)).
        -- rewrite Hframe; [apply Hbelow; lia| |].
           ++ intros Heq%to_string_inj. lia.
           ++ intros j' Hj' Heq%to_string_inj. lia.
        -- apply Hgone. lia.
    + destruct (merge_batch_last M fs0 cur total pend)
        as (fs' & Hrun & Hout & Hgone & Hframe); [lia|lia|done|done|done|].
      rewrite Hrun in Hbody. injection Hbody as <-. cbn.
      exists [std_sort (concat pend)]. split_and!.
      * intros j d Hj. destruct j; [|done]. injection Hj as <-.
        by rewrite Z.add_0_r.
      * destruct Hpok as [Hall Hsize]. split.
        -- constructor; [|done]. split; [|apply (Sorted_merge_sort Z.le)].
           intros Hnil. apply (f_equal length) in Hnil.
           rewrite std_sort_length in Hnil.
           destruct pend as [|d pend]; [cbn in Hlen; lia|].
           apply Forall_cons in Hall as [[Hd _] _].
           destruct d; [done|]. done.
        -- cbn. rewrite app_nil_r, std_sort_length. done.
      * cbn. rewrite app_nil_r, <- Hperm.
        apply (merge_sort_Permutation Z.le).
      * cbn. lia.
      * lia.
      * intros j Hj. destruct (decide (j < cur)).
        -- rewrite Hframe; [apply Hbelow; lia| |].
           ++ intros Heq%to_string_inj. lia.
           ++ intros j' Hj' Heq%to_string_inj. lia.
        -- apply Hgone. lia.
Qed.

(** No integer is ever out of the run files between two batches.  At
    the head of every iteration of the loop of lines 149-231, and when
    the loop is left, the directory holds a sequence of run files, named
    from [currentFileNumToMerge] on, each non-empty and ascending,
    which together hold the values of the runs [mergeTempFiles] was
    given, each as often; there are as many as runs are pending, and
    when none is pending it is the one run named [totalNumberOfFiles];
    and the runs with smaller names, which have been merged, are gone. *)
Theorem merge_keeps_all_data M fs runs st :
  1 < M → runs ≠ [] → runs_at fs 0 runs → runs_ok runs →
  reach (λ st, currentFileNumToMerge st < totalNumberOfFiles st)
        (merge_batch M) (mergeTempFiles_init fs (Z.of_nat (length runs))) st →
  ∃ pend,
    runs_at (p_fs st) (currentFileNumToMerge st) pend
    ∧ Forall (λ d, d ≠ [] ∧ Sorted Z.le d) pend
    ∧ concat pend ≡ₚ concat runs
    ∧ Z.of_nat (length pend)
      = Z.max 1 (totalNumberOfFiles st - currentFileNumToMerge st)
    ∧ (∀ j, 0 ≤ j < currentFileNumToMerge st → p_fs st !! to_string j = None).
Proof.
  intros HM Hne Hat Hok Hreach.
  destruct (merge_reach_inv M fs runs st HM Hne Hat Hok Hreach)
    as (pend & Hpat & [Hall _] & Hperm & Hlen & _ & Hbelow).
  by exists pend.
Qed.

End batches.

Section count.
Context `{H : StdHeap FileInteger} `{!StdHeapLaws H FileInteger_cmp}.

Lemma merge_loop_batches fuel M st runs :
  2 ≤ M →
  currentFileNumToMerge st < totalNumberOfFiles st →
  Z.of_nat (length runs) = totalNumberOfFiles st - currentFileNumToMerge st →
  runs_at (p_fs st) (currentFileNumToMerge st) runs →
  runs_ok runs →
  let batches :=
    1 + Z.max 0 (totalNumberOfFiles st - currentFileNumToMerge st - 2) / (M - 1) in
  (Z.of_nat fuel < batches → merge_loop fuel M st = OutOfFuel)
  ∧ (batches ≤ Z.of_nat fuel → ∃ st', merge_loop fuel M st = Normal st').
Proof.
  intros HM. revert st runs.
  induction fuel as [|fuel IH]; intros [fs cur total] runs Hcur Hlen Hat Hok;
    cbn [currentFileNumToMerge totalNumberOfFiles p_fs] in *; cbv zeta.
  - assert (0 ≤ Z.max 0 (total - cur - 2) / (M - 1))
      by (apply Z.div_pos; lia).
    split; [|lia]. intros _. cbn.
    by destruct (decide (cur < total)).
  - cbn [merge_loop currentFileNumToMerge totalNumberOfFiles].
    destruct (decide (cur < total)) as [_|]; [|lia].
    destruct (decide (M < total - cur)) as [Hmore | Hlast].
    + destruct (merge_batch_more M fs cur total runs)
        as (fs' & merged & Hrun & Hat' & Hok' & _); [lia|done..|].
      rewrite Hrun. cbn [mbind outcome_bind].
      specialize (IH {| p_fs := fs'; currentFileNumToMerge := cur + M;
                        totalNumberOfFiles := total + 1 |}
                     (drop (Z.to_nat M) runs ++ [merged])).
      cbn [currentFileNumToMerge totalNumberOfFiles p_fs] in IH.
      cbv zeta in IH.
      assert (Z.max 0 (total - cur - 2) / (M - 1)
              = Z.max 0 (total + 1 - (cur + M) - 2) / (M - 1) + 1) as Hdiv.
      { rewrite !Z.max_r by lia.
        replace (total - cur - 2) with ((total + 1 - (cur + M) - 2) + 1 * (M - 1))
          by lia.
        rewrite Z.div_add by lia. lia. }
      destruct IH as [IHout IHnormal]; [lia| |done|done|].
      { rewrite length_app, length_drop. cbn. lia. }
      split; intros Hfuel; [apply IHout | apply IHnormal]; lia.
    + destruct (merge_batch_last M fs cur total runs)
        as (fs' & Hrun & _); [lia|lia|done..|].
      rewrite Hrun. cbn [mbind outcome_bind].
      rewrite merge_loop_done by (cbn; lia).
      assert (Z.max 0 (total - cur - 2) / (M - 1) = 0) as ->.
      { apply Z.div_small. lia. }
      split; [lia|eauto].
Qed.

(** The number of batches of a merge.  Given [run_count >= 1] runs (in
    place, non-empty and ascending) and a bound above one, the loop of
    lines 149-231 executes exactly
    [1 + max (0, run_count - 2) / (bound - 1)] batches, which for two or
    more runs is [ceil ((run_count - 1) / (bound - 1))]: with fewer
    iterations allowed [mergeTempFiles] is still in its loop, with that
    many it has ended with the merged runs at the destination. *)
Theorem mergeTempFiles_batch_count fuel fs runs M dest :
  1 < M → runs ≠ [] → runs_at fs 0 runs → runs_ok runs →
  let total := Z.of_nat (length runs) in
  let batches := 1 + Z.max 0 (total - 2) / (M - 1) in
  (Z.of_nat fuel < batches →
   mergeTempFiles fuel fs total M dest = OutOfFuel)
  ∧ (batches ≤ Z.of_nat fuel →
     mergeTempFiles fuel fs total M dest
     = Normal (<[dest := std_sort (concat runs)]>
                 (remove_runs 0 (Z.to_nat (total + batches)) fs))).
Proof.
  intros HM Hne Hat Hok total batches.
  assert (0 < total) as Htotal.
  { subst total. destruct runs; [done|]. cbn [length]. lia. }
  destruct (merge_loop_batches fuel M (mergeTempFiles_init fs total) runs)
    as [Hout Hnormal]; cbn [mergeTempFiles_init currentFileNumToMerge
                             totalNumberOfFiles p_fs]; try (done || lia).
  cbn [mergeTempFiles_init currentFileNumToMerge totalNumberOfFiles p_fs]
    in Hout, Hnormal.
  rewrite Z.sub_0_r in Hout, Hnormal. fold batches in Hout, Hnormal.
  split; intros Hfuel.
  - unfold mergeTempFiles. by rewrite Hout.
  - destruct (Hnormal Hfuel) as [st' Hst'].
    pose proof (merge_loop_fuel _ (fuel `max` length runs) _ _ _ Hst'
                  ltac:(lia)) as Hst''.
    pose proof (mergeTempFiles_spec (fuel `max` length runs) fs runs M dest
                  ltac:(lia) Hne Hat Hok ltac:(lia)) as Hspec.
    cbv zeta in Hspec. fold total in Hspec.
    unfold mergeTempFiles in Hspec |- *.
    rewrite Hst'' in Hspec. rewrite Hst'.
    rewrite Hspec. do 3 f_equal. unfold last_run, batches.
    rewrite Z.sub_0_r. lia.
Qed.

End count.

(** ** The result and the bound *)

Section result.
Context `{H : StdHeap FileInteger} `{!StdHeapLaws H FileInteger_cmp}.



End result.

(** ** main *)

(** The runs of a sort of [n] integers are named by numbers up to
    [2 * n] at most. *)
Lemma last_run_sorted_chunks M d :
  1 < M → d ≠ [] →
  0 ≤ last_run M 0 (Z.of_nat (length (sorted_chunks (Z.to_nat M) d)))
    ≤ 2 * Z.of_nat (length d).
Proof.
  intros HM Hd.
  pose proof (sorted_chunks_length (Z.to_nat M) d ltac:(lia)) as Hlen.
  pose proof (sorted_chunks_nonempty (Z.to_nat M) d Hd) as Hne.
  set (T := Z.of_nat (length (sorted_chunks (Z.to_nat M) d))) in *.
  assert (1 ≤ T).
  { subst T. destruct (sorted_chunks (Z.to_nat M) d); [done|]. cbn. lia. }
  assert (T ≤ Z.of_nat (length d)).
  { rewrite Hlen, Z2Nat.id by lia.
    apply Z.div_le_upper_bound; [lia|]. destruct d; [done|]. cbn [length]. nia. }
  pose proof (last_run_ge M 0 T ltac:(lia)).
  pose proof (last_run_le M 0 T ltac:(lia) ltac:(lia)). lia.
Qed.

Section main.
Context `{H : StdHeap FileInteger} `{!StdHeapLaws H FileInteger_cmp}.

(** [main] with a bound above one.  When the input file cannot be
    opened the program exits with the directory untouched: no run and
    no output file is created.  When it holds [n >= 1] integers (its
    length in bytes being an [int]) and is not itself named like one of
    the runs "0" .. "2n", the program ends with the sorted content of
    the input at the destination, replacing what was there; the input
    file is still in place with its content, unless it is the
    destination; and every file that is neither the destination nor
    named like a run is as it was. *)
Theorem main_sorts_file fuel unsortedPath sortedPath M fs :
  1 < M →
  (fs !! unsortedPath = None →
   main fuel unsortedPath sortedPath M fs = Normal fs)
  ∧ (∀ d,
       fs !! unsortedPath = Some d → d ≠ [] →
       sizeof_int * Z.of_nat (length d) ≤ int_max →
       (length d ≤ fuel)%nat →
       (∀ j : nat, (j ≤ 2 * length d)%nat → unsortedPath ≠ to_string (Z.of_nat j)) →
       ∃ fs',
         main fuel unsortedPath sortedPath M fs = Normal fs'
         ∧ fs' !! sortedPath = Some (std_sort d)
         ∧ (unsortedPath ≠ sortedPath → fs' !! unsortedPath = Some d)
         ∧ (∀ s, s ≠ sortedPath →
              (∀ j : nat, (j ≤ 2 * length d)%nat → s ≠ to_string (Z.of_nat j)) →
              fs' !! s = fs !! s)).
Proof.
  intros HM. split.
  - intros Hnone. unfold main. rewrite decide_False by lia.
    unfold open_in. by rewrite Hnone.
  - intros d Hd Hne Hlen Hfuel Hname.
    exists (sorted_fs fs M d sortedPath).
    assert (∀ s, s ≠ sortedPath →
              (∀ j : nat, (j ≤ 2 * length d)%nat → s ≠ to_string (Z.of_nat j)) →
              sorted_fs fs M d sortedPath !! s = fs !! s) as Hframe.
    { intros s Hs Hrun. unfold sorted_fs. rewrite lookup_insert_ne by done.
      apply remove_runs_lookup_out. intros j Hj.
      pose proof (last_run_sorted_chunks M d HM Hne).
      rewrite Z.add_0_l. apply Hrun. lia. }
    split_and!.
    + unfold main. rewrite decide_False by lia.
      unfold open_in. rewrite Hd. cbn [sopen].
      apply external_sort_small; (done || lia).
    + apply sorted_fs_dest.
    + intros Hio. rewrite Hframe; done.
    + exact Hframe.
Qed.

End main.

Lemma main_sorts_file_witness :
  1 < 2
  ∧ main (H := binary_heap FileInteger) 3 "in.bin" "out.bin" 2 ∅ = Normal ∅
  ∧ ∃ fs',
      main (H := binary_heap FileInteger) 3 "in.bin" "out.bin" 2
        {[ "in.bin" := [3; 1; 2] ]} = Normal fs'
      ∧ fs' !! "out.bin" = Some (std_sort [3; 1; 2])
      ∧ fs' !! "in.bin" = Some [3; 1; 2].
Proof.
  assert (1 < 2) as HM by lia.
  pose proof (main_sorts_file (H := binary_heap FileInteger)
                3 "in.bin" "out.bin" 2 ∅ HM) as [Hmissing _].
  pose proof (main_sorts_file (H := binary_heap FileInteger)
                3 "in.bin" "out.bin" 2 {[ "in.bin" := [3; 1; 2] ]} HM) as [_ Hsorts].
  split; [exact HM|]. split; [exact (Hmissing eq_refl)|].
  assert (∀ j : nat, (j ≤ 2 * length [3; 1; 2])%nat →
            "in.bin" ≠ to_string (Z.of_nat j)) as Hname.
  { intros j Hj. cbn in Hj.
    do 7 (destruct j as [|j]; [by vm_compute|]). lia. }
  destruct (Hsorts [3; 1; 2] eq_refl ltac:(discriminate)
              ltac:(vm_compute; discriminate) ltac:(simpl; lia) Hname)
    as (fs' & Hrun & Hout & Hin & _).
  exists fs'. split; [exact Hrun|]. split; [exact Hout|].
  apply Hin. discriminate.
Defined.

(** ** These properties at concrete inputs *)

Lemma three_runs_at :
  runs_at {[ "0" := [3; 5]; "1" := [1; 4]; "2" := [2] ]} 0 [[3; 5]; [1; 4]; [2]].
Proof.
  intros j d Hj.
  do 3 (destruct j as [|j]; [by injection Hj as <-|]). done.
Qed.

Lemma three_runs_ok : runs_ok [[3; 5]; [1; 4]; [2]].
Proof.
  split; [|vm_compute; discriminate].
  repeat constructor; (done || lia).
Qed.



Lemma merge_batch_merges_witness :
  (1 ≤ 2 ∧ 0 < 3
   ∧ Z.of_nat (length [[3; 5]; [1; 4]]) = Z.min (3 - 0) 2)
  ∧ ∃ fs' out,
      merge_batch (H := binary_heap FileInteger) 2
        {| p_fs := {[ "0" := [3; 5]; "1" := [1; 4]; "2" := [2] ]};
           currentFileNumToMerge := 0; totalNumberOfFiles := 3 |}
      = Normal {| p_fs := fs'; currentFileNumToMerge := 2;
                  totalNumberOfFiles := 4 |}
      ∧ fs' !! "3" = Some out
      ∧ out ≡ₚ [3; 5; 1; 4]
      ∧ Sorted Z.le out.
Proof.
  assert (1 ≤ 2) as H1 by lia.
  assert (0 < 3) as H2 by lia.
  assert (Z.of_nat (length [[3; 5]; [1; 4]]) = Z.min (3 - 0) 2) as H3
    by reflexivity.
  assert (runs_at {[ "0" := [3; 5]; "1" := [1; 4]; "2" := [2] ]} 0
            [[3; 5]; [1; 4]]) as H4.
  { intros j d Hj. apply three_runs_at.
    do 2 (destruct j as [|j]; [done|]). done. }
  assert (Forall run_ok [[3; 5]; [1; 4]]) as H5.
  { repeat constructor; try done; vm_compute; discriminate. }
  split; [by split_and!|].
  destruct (merge_batch_merges (H := binary_heap FileInteger) 2
              {[ "0" := [3; 5]; "1" := [1; 4]; "2" := [2] ]} 0 3
              [[3; 5]; [1; 4]] H1 H2 H3 H4 H5)
    as (fs' & out & Hrun & Hout & Hperm & Hsorted & _).
  exists fs', out. split_and!; done.
Defined.

Lemma merge_keeps_all_data_witness :
  let fs : filesystem := {[ "0" := [3; 5]; "1" := [1; 4]; "2" := [2] ]} in
  let st := {| p_fs := {[ "2" := [2]; "3" := [1; 3; 4; 5] ]};
               currentFileNumToMerge := 2; totalNumberOfFiles := 4 |} in
  (1 < 2
   ∧ reach (λ st, currentFileNumToMerge st < totalNumberOfFiles st)
       (merge_batch (H := binary_heap FileInteger) 2)
       (mergeTempFiles_init fs (Z.of_nat (length [[3; 5]; [1; 4]; [2]]))) st)
  ∧ ∃ pend,
      runs_at (p_fs st) (currentFileNumToMerge st) pend
      ∧ Forall (λ d, d ≠ [] ∧ Sorted Z.le d) pend
      ∧ concat pend ≡ₚ concat [[3; 5]; [1; 4]; [2]]
      ∧ Z.of_nat (length pend)
        = Z.max 1 (totalNumberOfFiles st - currentFileNumToMerge st)
      ∧ (∀ j, 0 ≤ j < currentFileNumToMerge st → p_fs st !! to_string j = None).
Proof.
  cbv zeta.
  assert (1 < 2) as H1 by lia.
  assert ([[3; 5]; [1; 4]; [2]] ≠ ([] : list (list Z))) as H2 by discriminate.
  assert (reach (λ st, currentFileNumToMerge st < totalNumberOfFiles st)
            (merge_batch (H := binary_heap FileInteger) 2)
            (mergeTempFiles_init {[ "0" := [3; 5]; "1" := [1; 4]; "2" := [2] ]}
               (Z.of_nat (length [[3; 5]; [1; 4]; [2]])))
            {| p_fs := {[ "2" := [2]; "3" := [1; 3; 4; 5] ]};
               currentFileNumToMerge := 2; totalNumberOfFiles := 4 |}) as H3.
  { eapply reach_step; [apply reach_start|cbn; lia|by vm_compute]. }
  split; [by split|].
  exact (merge_keeps_all_data (H := binary_heap FileInteger) 2 _ _ _
           H1 H2 three_runs_at three_runs_ok H3).
Defined.

Lemma mergeTempFiles_batch_count_witness :
  let fs : filesystem := {[ "0" := [3; 5]; "1" := [1; 4]; "2" := [2] ]} in
  let runs := [[3; 5]; [1; 4]; [2]] in
  (1 < 2 ∧ runs ≠ [] ∧ runs_at fs 0 runs ∧ runs_ok runs)
  ∧ 1 + Z.max 0 (Z.of_nat (length runs) - 2) / (2 - 1) = 2
  ∧ mergeTempFiles (H := binary_heap FileInteger) 1 fs
      (Z.of_nat (length runs)) 2 "sorted" = OutOfFuel
  ∧ mergeTempFiles (H := binary_heap FileInteger) 2 fs
      (Z.of_nat (length runs)) 2 "sorted"
    = Normal (<[ "sorted" := std_sort (concat runs) ]>
                (remove_runs 0
                   (Z.to_nat (Z.of_nat (length runs)
                              + (1 + Z.max 0 (Z.of_nat (length runs) - 2) / (2 - 1))))
                   fs)).
Proof.
  cbv zeta.
  assert (1 < 2) as H1 by lia.
  assert ([[3; 5]; [1; 4]; [2]] ≠ ([] : list (list Z))) as H2 by discriminate.
  split; [split_and!; [exact H1|exact H2|exact three_runs_at|exact three_runs_ok]|].
  split; [reflexivity|]. split.
  - exact (proj1 (mergeTempFiles_batch_count (H := binary_heap FileInteger) 1
                    _ _ 2 "sorted" H1 H2 three_runs_at three_runs_ok)
                 eq_refl).
  - exact (proj2 (mergeTempFiles_batch_count (H := binary_heap FileInteger) 2
                    _ _ 2 "sorted" H1 H2 three_runs_at three_runs_ok)
                 ltac:(vm_compute; discriminate)).
Defined.
